(** * GitRepo: a shallow embedding of [src/lib/utils/git-repo.ts]

    The TypeScript class [GitRepo] builds `git` command lines from an
    options object, runs them through [shelljs] inside the repository's
    directory and logs what it ran.  This file embeds the class as
    executable Rocq functions over an explicit state (the session's
    [destroyed] flag and the host process) and proves the properties the
    specification states about it. *)

From Stdlib Require Import String Ascii Arith NArith Bool List Lia.
Import ListNotations.

Local Open Scope N_scope.
Local Open Scope list_scope.

(** ** JavaScript strings

    A JavaScript string is a finite sequence of UTF-16 code units;
    [length], [trim], [split], [startsWith] all work on code units. *)

Module JS.

Definition jsstring := list N.

(** An ASCII literal as a JavaScript string. *)
Fixpoint u (s : string) : jsstring :=
  match s with
  | EmptyString => []
  | String c r => N_of_ascii c :: u r
  end.

Definition LF : N := 10.
Definition CR : N := 13.
Definition SP : N := 32.
Definition DQUOTE : N := 34.

Fixpoint eqb (a b : jsstring) : bool :=
  match a, b with
  | [], [] => true
  | x :: a', y :: b' => (x =? y) && eqb a' b'
  | _, _ => false
  end.

(** [String.prototype.startsWith]. *)
Fixpoint startsWith (s p : jsstring) {struct p} : bool :=
  match p, s with
  | [], _ => true
  | x :: p', y :: s' => (x =? y) && startsWith s' p'
  | _ :: _, [] => false
  end.

(** ECMAScript [WhiteSpace] and [LineTerminator] code points: what
    [String.prototype.trim] strips. *)
Definition isWhiteSpace (c : N) : bool :=
  (c =? 9) || (c =? 10) || (c =? 11) || (c =? 12) || (c =? 13) ||
  (c =? 32) || (c =? 160) || (c =? 5760) ||
  ((8192 <=? c) && (c <=? 8202)) ||
  (c =? 8232) || (c =? 8233) || (c =? 8239) || (c =? 8287) ||
  (c =? 12288) || (c =? 65279).

Fixpoint trimStart (s : jsstring) : jsstring :=
  match s with
  | [] => []
  | c :: r => if isWhiteSpace c then trimStart r else s
  end.

Definition trimEnd (s : jsstring) : jsstring := rev (trimStart (rev s)).

(** [String.prototype.trim]. *)
Definition trim (s : jsstring) : jsstring := trimEnd (trimStart s).

(** [Array.prototype.join] on an array of strings. *)
Fixpoint join (sep : jsstring) (l : list jsstring) : jsstring :=
  match l with
  | [] => []
  | [a] => a
  | a :: r => a ++ sep ++ join sep r
  end.

(** Prepends a code unit to the first piece of a split. *)
Definition consHead (c : N) (l : list jsstring) : list jsstring :=
  match l with
  | [] => [[c]]
  | h :: r => (c :: h) :: r
  end.

(** [s.split('\n')]. *)
Fixpoint splitLF (s : jsstring) : list jsstring :=
  match s with
  | [] => [[]]
  | c :: r => if c =? LF then [] :: splitLF r else consHead c (splitLF r)
  end.

(** [s.split(/\r?\n/)]: the separator is a line feed, together with the
    carriage return right before it when there is one. *)
Fixpoint splitNewlines (s : jsstring) : list jsstring :=
  match s with
  | [] => [[]]
  | c :: r =>
      if c =? LF then [] :: splitNewlines r
      else match r with
           | d :: r' =>
               if (c =? CR) && (d =? LF) then [] :: splitNewlines r'
               else consHead c (splitNewlines r)
           | [] => consHead c (splitNewlines r)
           end
  end.

(** Truthiness of a string: non-empty. *)
Definition truthy (s : jsstring) : bool :=
  match s with [] => false | _ => true end.

End JS.

Import JS.

(** ** Command options: [ICommnandOptions]

    An options object is represented by its own enumerable entries in
    [Object.entries] order; a well-formed object has no repeated key. *)

Inductive OptValue :=
| VUndefined
| VBool (b : bool)
| VStr (s : jsstring)
| VList (l : list jsstring).

Definition ICommnandOptions := list (jsstring * OptValue).

(** The values that survive the [undefined] / [false] filter:
    [true | string | string[]]. *)
Inductive Retained :=
| RTrue
| RStr (s : jsstring)
| RList (l : list jsstring).

Module Obj.

(** [o[k]]: [None] when [o] has no own property [k]. *)
Fixpoint get (k : jsstring) (o : ICommnandOptions) : option OptValue :=
  match o with
  | [] => None
  | (k', v) :: r => if JS.eqb k k' then Some v else get k r
  end.

(** The rest of an object destructuring: [{[k]: _, ...rest} = o]. *)
Definition without (k : jsstring) (o : ICommnandOptions) : ICommnandOptions :=
  filter (fun e => negb (JS.eqb k (fst e))) o.

(** [{...o, [k]: v}]: an existing key keeps its place, a new one goes last. *)
Fixpoint set (k : jsstring) (v : OptValue) (o : ICommnandOptions) : ICommnandOptions :=
  match o with
  | [] => [(k, v)]
  | (k', v') :: r => if JS.eqb k k' then (k', v) :: r else (k', v') :: set k v r
  end.

(** [{...o}] for an optional [o]; spreading [undefined] gives [{}]. *)
Definition spread (o : option ICommnandOptions) : ICommnandOptions :=
  match o with Some o => o | None => [] end.

End Obj.

Module CommandBuilder.

Definition normalizeValue (val : Retained) : list jsstring :=
  match val with
  | RTrue => [[]]
  | RList l => l
  | RStr s => [s]
  end.

(** [(entry[1] !== undefined) && (entry[1] !== false)], with the narrowed
    value when the test passes. *)
Definition retain (v : OptValue) : option Retained :=
  match v with
  | VUndefined => None
  | VBool false => None
  | VBool true => Some RTrue
  | VStr s => Some (RStr s)
  | VList l => Some (RList l)
  end.

(** The left operand of [cmdArgs && normalizeValue(cmdArgs)]: a missing
    key, [undefined], [false] and the empty string are falsy. *)
Definition truthyValue (v : option OptValue) : option Retained :=
  match v with
  | None => None
  | Some (VStr []) => None
  | Some v => retain v
  end.

Definition flagName (key : jsstring) : jsstring :=
  if Nat.eqb (length key) 1 then u "-" ++ key else u "--" ++ key.

Fixpoint retainedEntries (o : ICommnandOptions) : list (jsstring * Retained) :=
  match o with
  | [] => []
  | (k, v) :: r =>
      match retain v with
      | Some rv => (k, rv) :: retainedEntries r
      | None => retainedEntries r
      end
  end.

Definition normalizedCmdOpts (cmdOpts : ICommnandOptions) : list (jsstring * list jsstring) :=
  map (fun e => (flagName (fst e), normalizeValue (snd e))) (retainedEntries cmdOpts).

(** [values.map(value => `${name} ${value}`.trim()).join(' ')]. *)
Definition renderOpt (e : jsstring * list jsstring) : jsstring :=
  join [SP] (map (fun value => trim (fst e ++ [SP] ++ value)) (snd e)).

Definition withOptions (cmd : jsstring) (opts : option ICommnandOptions) : jsstring :=
  let o := Obj.spread opts in
  let cmdArgs := Obj.get (u "--") o in
  let cmdOpts := Obj.without (u "--") o in
  let normalizedCmdArgs := option_map normalizeValue (truthyValue cmdArgs) in
  let normalized := normalizedCmdOpts cmdOpts in
  let cmd1 :=
    if Nat.ltb 0 (length normalized)
    then cmd ++ [SP] ++ join [SP] (map renderOpt normalized)
    else cmd in
  match normalizedCmdArgs with
  | Some args => cmd1 ++ u " -- " ++ join [SP] args
  | None => cmd1
  end.

End CommandBuilder.

(** ** [JSON.stringify] of a string (QuoteJSONString) *)

Module JSON.

Definition hexDigit (n : N) : N :=
  if n <? 10 then 48 + n else 87 + n.

(** [\uXXXX] with lower-case hexadecimal digits. *)
Definition unicodeEscape (c : N) : jsstring :=
  [92; 117; hexDigit ((c / 4096) mod 16); hexDigit ((c / 256) mod 16);
   hexDigit ((c / 16) mod 16); hexDigit (c mod 16)].

Definition isLeadingSurrogate (c : N) : bool := (55296 <=? c) && (c <=? 56319).
Definition isTrailingSurrogate (c : N) : bool := (56320 <=? c) && (c <=? 57343).

Definition escapeUnit (c : N) : jsstring :=
  if c =? 8 then u "\b"
  else if c =? 9 then u "\t"
  else if c =? 10 then u "\n"
  else if c =? 12 then u "\f"
  else if c =? 13 then u "\r"
  else if c =? 34 then [92; 34]
  else if c =? 92 then [92; 92]
  else if (c <? 32) || isLeadingSurrogate c || isTrailingSurrogate c then unicodeEscape c
  else [c].

Fixpoint quoteBody (s : jsstring) : jsstring :=
  match s with
  | [] => []
  | c :: r =>
      match r with
      | d :: r' =>
          if isLeadingSurrogate c && isTrailingSurrogate d
          then c :: d :: quoteBody r'
          else escapeUnit c ++ quoteBody r
      | [] => escapeUnit c
      end
  end.

(** [`${JSON.stringify(val)}`] for [val : string | undefined]. *)
Definition stringify (val : option jsstring) : jsstring :=
  match val with
  | Some s => [DQUOTE] ++ quoteBody s ++ [DQUOTE]
  | None => u "undefined"
  end.

End JSON.

(** ** The host process

    [shelljs], the logger and [path] are collaborators outside the modelled
    file.  The process keeps its working directory, the directory stack of
    [sh.pushd] / [sh.popd], its environment, and a chronological record of
    every call the class makes into a collaborator. *)

(** [NodeJS.ProcessEnv]. *)
Definition Env := list (jsstring * option jsstring).

Inductive Event :=
| Pushd (dir : jsstring)
| Popd
| Debug (msg : jsstring)
| Exec (cwd cmd : jsstring) (env : option Env)
| Rm (dir : jsstring)
| WriteFile (path content : jsstring)
| Chmod (mode path : jsstring).

Record Process := mkProcess {
  cwd : jsstring;
  dirStack : list jsstring;
  processEnv : Env;
  history : list Event
}.

(** [sh.ExecOutputReturnValue]. *)
Record ExecOutput := mkExecOutput {
  code : N;
  stdout : jsstring;
  stderr : jsstring
}.

(** What can be thrown: [new Error('Repository already destroyed.')], or
    whatever [sh.exec] raises. *)
Inductive Exn :=
| RepositoryDestroyed
| HostError (msg : jsstring).

Inductive Res (A : Type) :=
| Ok (a : A)
| Throw (e : Exn).

Arguments Ok {A} a.
Arguments Throw {A} e.

(** What the class takes from outside its file: the two imported
    constants, [path.resolve], and the outcome of [sh.exec] (the captured
    output, or an exception) as a function of the command, the environment
    handed over and the process at that moment. *)
Class Platform := {
  NEWLINE_PLACEHOLDER : jsstring;
  FIX_COMMIT_MESSAGE_NEWLINES_SCRIPT_PATH : jsstring;
  path_resolve : jsstring -> jsstring -> jsstring;
  sh_exec : jsstring -> option Env -> Process -> Res ExecOutput
}.

(** The fields of a session.  [name] and [credentialsPath] are computed
    once by the constructor (from [basename], [join] and [Date.now]) and
    never change; [destroyed] starts as [false]. *)
Record GitRepo := mkGitRepo {
  directory : jsstring;
  name : jsstring;
  credentialsPath : jsstring;
  destroyed : bool
}.

Record State := mkState {
  repo : GitRepo;
  proc : Process
}.

(** Computations of the class: they read and update the state and either
    return a value or throw. *)
Definition M (A : Type) := State -> Res A * State.

Definition ret {A} (a : A) : M A := fun st => (Ok a, st).

Definition throw {A} (e : Exn) : M A := fun st => (Throw e, st).

Definition bind {A B} (m : M A) (k : A -> M B) : M B :=
  fun st =>
    match m st with
    | (Ok a, st') => k a st'
    | (Throw e, st') => (Throw e, st')
    end.

(** [try { body } finally { fin }]. *)
Definition tryFinally {A} (body : M A) (fin : M unit) : M A :=
  fun st =>
    match body st with
    | (r, st') =>
        match fin st' with
        | (Ok _, st'') => (r, st'')
        | (Throw e, st'') => (Throw e, st'')
        end
    end.

Declare Scope m_scope.
Delimit Scope m_scope with M.
Notation "x <- m ;; k" := (bind m (fun x => k))
  (at level 61, m at next level, right associativity) : m_scope.
Notation "m ;; k" := (bind m (fun _ => k))
  (at level 61, right associativity) : m_scope.

Definition getState : M State := fun st => (Ok st, st).

Definition updProc (f : Process -> Process) : M unit :=
  fun st => (Ok tt, mkState (repo st) (f (proc st))).

Definition record (e : Event) (p : Process) : Process :=
  mkProcess (cwd p) (dirStack p) (processEnv p) (history p ++ [e]).

Fixpoint forEach {A} (l : list A) (f : A -> M unit) : M unit :=
  match l with
  | [] => ret tt
  | a :: r => bind (f a) (fun _ => forEach r f)
  end.

(** ** The collaborators' calls *)

(** [sh.pushd('-q', dir)]: saves the working directory on the stack and
    changes into [dir], which is taken to exist. *)
Definition sh_pushd `{Platform} (dir : jsstring) : M unit :=
  updProc (fun p =>
    mkProcess (path_resolve (cwd p) dir) (cwd p :: dirStack p) (processEnv p)
              (history p ++ [Pushd dir])).

(** [sh.popd('-q')]: changes back into the directory saved last. *)
Definition sh_popd : M unit :=
  updProc (fun p =>
    match dirStack p with
    | d :: r => mkProcess d r (processEnv p) (history p ++ [Popd])
    | [] => record Popd p
    end).

(** [logger.debug(msg)]: the sink takes the line and returns. *)
Definition logger_debug (msg : jsstring) : M unit :=
  updProc (record (Debug msg)).

(** [sh.exec(cmd, {env, silent: true})]. *)
Definition sh_exec_call `{Platform} (cmd : jsstring) (env : option Env) : M ExecOutput :=
  fun st =>
    let p := proc st in
    (sh_exec cmd env p, mkState (repo st) (record (Exec (cwd p) cmd env) p)).

Definition sh_rm (dir : jsstring) : M unit := updProc (record (Rm dir)).

Definition sh_writeTo (path content : jsstring) : M unit :=
  updProc (record (WriteFile path content)).

Definition sh_chmod (mode path : jsstring) : M unit :=
  updProc (record (Chmod mode path)).

(** [{...base, ...extra}] on environments. *)
Fixpoint envSet (k : jsstring) (v : option jsstring) (e : Env) : Env :=
  match e with
  | [] => [(k, v)]
  | (k', v') :: r => if JS.eqb k k' then (k', v) :: r else (k', v') :: envSet k v r
  end.

Definition envMerge (base extra : Env) : Env :=
  fold_left (fun acc kv => envSet (fst kv) (snd kv) acc) extra base.

(** An argument of an overloaded method, by its run-time type. *)
Inductive Arg :=
| ArgUndefined
| ArgString (s : jsstring)
| ArgOptions (o : ICommnandOptions).

(** The options a non-string argument stands for. *)
Definition asOptions (a : Arg) : option ICommnandOptions :=
  match a with
  | ArgOptions o => Some o
  | _ => None
  end.

(** ** The class [GitRepo] *)

Section GitRepoClass.

Context `{Platform}.

Local Open Scope m_scope.

Definition envVarStr (envVars : option Env) : jsstring :=
  match envVars with
  | None => []
  | Some ev =>
      u " (" ++
      join (u ", ") (map (fun kv => fst kv ++ u "=" ++ JSON.stringify (snd kv)) ev) ++
      u ")"
  end.

Definition execInRepo (partialCmd : jsstring) (cmdOpts : option ICommnandOptions)
    (envVars : option Env) : M ExecOutput :=
  st <- getState ;;
  if destroyed (repo st) then throw RepositoryDestroyed
  else
    tryFinally
      (sh_pushd (directory (repo st)) ;;
       let cmd := CommandBuilder.withOptions (trim partialCmd) cmdOpts in
       st1 <- getState ;;
       let env := option_map (envMerge (processEnv (proc st1))) envVars in
       logger_debug (u "GIT: " ++ cmd ++ envVarStr envVars) ;;
       result <- sh_exec_call cmd env ;;
       forEach (filter (fun line => truthy (trim line)) (splitLF (stdout result)))
               (fun line => logger_debug (u "GIT: " ++ line)) ;;
       ret result)
      sh_popd.

Definition currentBranch : M jsstring :=
  r <- execInRepo (u "git rev-parse --abbrev-ref HEAD") None None ;;
  ret (trim (stdout r)).

Definition addRemote (name url : jsstring) : M unit :=
  execInRepo (u "git remote remove " ++ name ++ u " || true") None None ;;
  execInRepo (u "git remote add " ++ name ++ u " " ++ url) None None ;;
  ret tt.

Definition checkout (ref : jsstring) (opts : option ICommnandOptions) : M unit :=
  execInRepo (u "git checkout " ++ ref) opts None ;;
  ret tt.

Definition tempMsgArg (msg : jsstring) : jsstring :=
  [DQUOTE] ++ join NEWLINE_PLACEHOLDER (splitNewlines (trim msg)) ++ [DQUOTE].

Definition filterBranchCmd : jsstring :=
  u "git filter-branch --msg-filter " ++ [DQUOTE] ++ u "node " ++
  FIX_COMMIT_MESSAGE_NEWLINES_SCRIPT_PATH ++ [DQUOTE] ++ u " @~1..@".

Definition commit (msg : jsstring) (opts : option ICommnandOptions) : M unit :=
  execInRepo (u "git commit")
    (Some (Obj.set (u "message") (VStr (tempMsgArg msg)) (Obj.spread opts))) None ;;
  execInRepo filterBranchCmd None
    (Some [(u "FILTER_BRANCH_SQUELCH_WARNING", Some (u "1"))]) ;;
  ret tt.

Definition config (key value : jsstring) : M unit :=
  execInRepo (u "git config " ++ key ++ u " " ++ value) None None ;;
  ret tt.

Definition destroy : M unit :=
  st <- getState ;;
  if negb (destroyed (repo st)) then
    sh_rm (directory (repo st)) ;;
    (fun st' =>
       let r := repo st' in
       (Ok tt, mkState (mkGitRepo (directory r) (name r) (credentialsPath r) true) (proc st')))
  else ret tt.

Definition fetchCmd (remote branch : jsstring) : jsstring :=
  u "git fetch " ++ remote ++ u " " ++ branch.

Definition fetch (remote : jsstring) (branch : Arg) (opts : option ICommnandOptions) : M unit :=
  match branch with
  | ArgString b =>
      execInRepo (fetchCmd remote b) opts None ;; ret tt
  | other =>
      execInRepo (fetchCmd remote []) (asOptions other) None ;; ret tt
  end.

(** [line.replace(new RegExp(`^${source}`), '')] when [source] has no
    regular-expression syntax character: the pattern then matches
    [source] itself, at the start of the line only. *)
Definition isSyntaxCharacter (c : N) : bool :=
  existsb (N.eqb c) (u "^$\.*+?()[]{}|").

Definition literalSource (source : jsstring) : bool :=
  forallb (fun c => negb (isSyntaxCharacter c)) source.

Definition replaceAtStart (source line : jsstring) : jsstring :=
  if startsWith line source then skipn (length source) line else line.

Definition parseRemoteBranches (remote branchesOutput : jsstring) : list jsstring :=
  map (replaceAtStart (remote ++ u "/"))
    (filter (fun line => startsWith line (remote ++ u "/"))
       (map trim (splitLF branchesOutput))).

Definition getRemoteBranches (remote : jsstring) : M (list jsstring) :=
  fetch remote (ArgOptions [(u "depth", VStr (u "1")); (u "no-tags", VBool true)]) None ;;
  r <- execInRepo (u "git branch") (Some [(u "remote", VBool true)]) None ;;
  ret (parseRemoteBranches remote (stdout r)).

Definition init (opts : option ICommnandOptions) : M unit :=
  execInRepo (u "git init") opts None ;;
  ret tt.

Definition pushCmd (remote localBranch remoteBranch : jsstring) : jsstring :=
  u "git push " ++ remote ++ u " " ++ localBranch ++ u ":" ++ remoteBranch.

Definition push (remote : jsstring) (localBranch remoteBranch : Arg)
    (opts : option ICommnandOptions) : M unit :=
  match localBranch with
  | ArgString lb =>
      match remoteBranch with
      | ArgString rb =>
          execInRepo (pushCmd remote lb rb) opts None ;; ret tt
      | other =>
          cb <- currentBranch ;;
          execInRepo (pushCmd remote cb lb) (asOptions other) None ;; ret tt
      end
  | other =>
      cb <- currentBranch ;;
      execInRepo (pushCmd remote cb cb) (asOptions other) None ;; ret tt
  end.

Definition deleteRemoteBranch (remote branch : jsstring) (opts : option ICommnandOptions)
    : M unit :=
  push remote (ArgString []) (ArgString branch) None.

Definition quoted (s : jsstring) : jsstring := [DQUOTE] ++ s ++ [DQUOTE].

Definition setUserInfo (name email : jsstring) (ghToken : option jsstring) : M unit :=
  config (u "user.name") (quoted name) ;;
  config (u "user.email") (quoted email) ;;
  match ghToken with
  | Some (c :: t) =>
      st <- getState ;;
      let path := credentialsPath (repo st) in
      sh_writeTo path (u "https://" ++ (c :: t) ++ u ":@github.com") ;;
      sh_chmod (u "go-rwx") path ;;
      config (u "credential.helper") (quoted (u "store --file=" ++ path))
  | _ => ret tt
  end.

Definition stage (files : list jsstring) (opts : option ICommnandOptions) : M unit :=
  execInRepo (u "git add") (Some (Obj.set (u "--") (VList files) (Obj.spread opts))) None ;;
  ret tt.

End GitRepoClass.

(** ** Calls on a session

    The public interface as one type, so that a statement can range over
    every operation. *)

Inductive Call :=
| CallCurrentBranch
| CallAddRemote (name url : jsstring)
| CallCheckout (ref : jsstring) (opts : option ICommnandOptions)
| CallCommit (msg : jsstring) (opts : option ICommnandOptions)
| CallConfig (key value : jsstring)
| CallDeleteRemoteBranch (remote branch : jsstring) (opts : option ICommnandOptions)
| CallDestroy
| CallFetch (remote : jsstring) (branch : Arg) (opts : option ICommnandOptions)
| CallGetRemoteBranches (remote : jsstring)
| CallInit (opts : option ICommnandOptions)
| CallPush (remote : jsstring) (localBranch remoteBranch : Arg) (opts : option ICommnandOptions)
| CallSetUserInfo (name email : jsstring) (ghToken : option jsstring)
| CallStage (files : list jsstring) (opts : option ICommnandOptions).

Inductive Returned :=
| Void
| Str (s : jsstring)
| Strs (l : list jsstring).

Definition void (m : M unit) : M Returned := bind m (fun _ => ret Void).

Definition invoke `{Platform} (c : Call) : M Returned :=
  match c with
  | CallCurrentBranch => bind currentBranch (fun b => ret (Str b))
  | CallAddRemote n url => void (addRemote n url)
  | CallCheckout ref opts => void (checkout ref opts)
  | CallCommit msg opts => void (commit msg opts)
  | CallConfig k v => void (config k v)
  | CallDeleteRemoteBranch r b opts => void (deleteRemoteBranch r b opts)
  | CallDestroy => void destroy
  | CallFetch r b opts => void (fetch r b opts)
  | CallGetRemoteBranches r => bind (getRemoteBranches r) (fun l => ret (Strs l))
  | CallInit opts => void (init opts)
  | CallPush r lb rb opts => void (push r lb rb opts)
  | CallSetUserInfo n e t => void (setUserInfo n e t)
  | CallStage files opts => void (stage files opts)
  end.

(** A caller that makes the calls one after the other and keeps going
    when one throws. *)
Fixpoint invokeAll `{Platform} (cs : list Call) (st : State) : list (Res Returned) * State :=
  match cs with
  | [] => ([], st)
  | c :: r =>
      let (res, st') := invoke c st in
      let (rest, st'') := invokeAll r st' in
      (res :: rest, st'')
  end.

Definition isDestroy (c : Call) : bool :=
  match c with CallDestroy => true | _ => false end.

(** The commands handed to [sh.exec] so far, oldest first. *)
Definition commands (p : Process) : list jsstring :=
  flat_map (fun e => match e with Exec _ cmd _ => [cmd] | _ => [] end) (history p).

(** The working directories those commands ran in. *)
Definition execDirs (p : Process) : list jsstring :=
  flat_map (fun e => match e with Exec d _ _ => [d] | _ => [] end) (history p).

(** The debug lines [execInRepo] logs for an outcome of [sh.exec]. *)
Definition outputLog (r : Res ExecOutput) : list Event :=
  match r with
  | Ok out =>
      map (fun line => Debug (u "GIT: " ++ line))
        (filter (fun line => truthy (trim line)) (splitLF (stdout out)))
  | Throw _ => []
  end.

(** ** What one run of [execInRepo] does *)

Section RunShape.

Context `{Platform}.

(** The command [execInRepo] composes and the environment it hands over. *)
Definition composed (partialCmd : jsstring) (cmdOpts : option ICommnandOptions) : jsstring :=
  CommandBuilder.withOptions (trim partialCmd) cmdOpts.

Definition handedEnv (p : Process) (envVars : option Env) : option Env :=
  option_map (envMerge (processEnv p)) envVars.

(** The process as [sh.exec] finds it: inside the session's directory,
    the previous directory saved, the command logged. *)
Definition inside (st : State) (partialCmd : jsstring) (cmdOpts : option ICommnandOptions)
    (envVars : option Env) : Process :=
  let p := proc st in
  mkProcess (path_resolve (cwd p) (directory (repo st))) (cwd p :: dirStack p) (processEnv p)
    (history p ++ [Pushd (directory (repo st));
                   Debug (u "GIT: " ++ composed partialCmd cmdOpts ++ envVarStr envVars)]).

(** The state [execInRepo] leaves behind for an outcome [r] of [sh.exec]. *)
Definition after (st : State) (partialCmd : jsstring) (cmdOpts : option ICommnandOptions)
    (envVars : option Env) (r : Res ExecOutput) : State :=
  let p := proc st in
  mkState (repo st)
    (mkProcess (cwd p) (dirStack p) (processEnv p)
       (history p ++
        [Pushd (directory (repo st));
         Debug (u "GIT: " ++ composed partialCmd cmdOpts ++ envVarStr envVars);
         Exec (path_resolve (cwd p) (directory (repo st))) (composed partialCmd cmdOpts)
              (handedEnv p envVars)] ++
        outputLog r ++ [Popd])).

End RunShape.

(** ** Vocabulary of the statements *)

(** A flag (any key but the reserved one) whose value is [false] or
    [undefined]. *)
Definition unsetFlag (e : jsstring * OptValue) : bool :=
  negb (JS.eqb (u "--") (fst e)) &&
  match CommandBuilder.retain (snd e) with None => true | Some _ => false end.

Definition dropUnset (o : ICommnandOptions) : ICommnandOptions :=
  filter (fun e => negb (unsetFlag e)) o.

(** The text one retained flag contributes to the command. *)
Definition rendered (key : jsstring) (v : Retained) : jsstring :=
  CommandBuilder.renderOpt (CommandBuilder.flagName key, CommandBuilder.normalizeValue v).

(** The rendering of flags as the specification words it, written
    without the functions of the class, to compare [withOptions] with. *)
Module OptionSpec.

(** One dash before a name of length 1, two before any other name. *)
Definition dashes (name : jsstring) : jsstring :=
  match name with
  | [_] => [45]
  | _ => [45; 45]
  end.

(** The values a flag is rendered with, in order: none at all for
    [false] and [undefined] (the flag is left out), one empty value for
    [true], the string itself, the elements of a list. *)
Definition values (v : OptValue) : option (list jsstring) :=
  match v with
  | VUndefined => None
  | VBool false => None
  | VBool true => Some [[]]
  | VStr s => Some [s]
  | VList l => Some l
  end.

(** `flag value` without blanks around it: the bare flag when the value
    is empty. *)
Definition occurrence (name value : jsstring) : jsstring :=
  trim (dashes name ++ name ++ [SP] ++ value).

(** The text of each flag that is rendered, in the order of the object:
    its occurrences, one per value, separated by single spaces. *)
Fixpoint flags (o : ICommnandOptions) : list jsstring :=
  match o with
  | [] => []
  | (name, v) :: r =>
      match values v with
      | None => flags r
      | Some vs => join [SP] (map (occurrence name) vs) :: flags r
      end
  end.

(** The base command, then the flags separated by single spaces. *)
Definition command (cmd : jsstring) (o : ICommnandOptions) : jsstring :=
  match flags o with
  | [] => cmd
  | fs => cmd ++ [SP] ++ join [SP] fs
  end.

End OptionSpec.

(** A non-string argument: an options object, or nothing. *)
Definition nonString (o : option ICommnandOptions) : Arg :=
  match o with
  | Some o => ArgOptions o
  | None => ArgUndefined
  end.

(** A computation that leaves the working directory and the directory
    stack as it found them, whatever it returns or throws. *)
Definition keepsDir {A} (m : M A) : Prop :=
  forall st,
    cwd (proc (snd (m st))) = cwd (proc st) /\
    dirStack (proc (snd (m st))) = dirStack (proc st).

(** [sh.exec] returns for [cmd], in every process and environment, with
    an output that satisfies [P]. *)
Definition answers `{Platform} (cmd : jsstring) (P : ExecOutput -> Prop) : Prop :=
  forall env p, exists out, sh_exec cmd env p = Ok out /\ P out.

(** The session's current branch, as [git rev-parse] reports it, is [cb]. *)
Definition headIs `{Platform} (cb : jsstring) : Prop :=
  answers (u "git rev-parse --abbrev-ref HEAD") (fun out => trim (stdout out) = cb).

(** ** Undoing the placeholder substitution *)

Module CommitMessage.

(** Every occurrence of [placeholder], found left to right, becomes a
    line feed again.  [skip] counts the code units of an occurrence still
    to pass. *)
Fixpoint restoreFrom (placeholder : jsstring) (skip : nat) (s : jsstring) : jsstring :=
  match s with
  | [] => []
  | c :: r =>
      match skip with
      | S k => restoreFrom placeholder k r
      | O =>
          if truthy placeholder && startsWith s placeholder
          then LF :: restoreFrom placeholder (length placeholder - 1) r
          else c :: restoreFrom placeholder 0 r
      end
  end.

(** A carriage return directly before a line feed. *)
Fixpoint hasCRLF (s : jsstring) : bool :=
  match s with
  | [] => false
  | c :: r =>
      match r with
      | d :: _ => ((c =? CR) && (d =? LF)) || hasCRLF r
      | [] => false
      end
  end.

End CommitMessage.

(** ** A concrete platform and session

    Used to run the definitions: [git rev-parse] answers [main],
    [git branch --remote] lists three remote branches, every other command
    prints nothing. *)

Definition exampleListing : jsstring :=
  u "  origin/main" ++ [LF] ++ u "  origin/dev" ++ [LF] ++ u "  upstream/main" ++ [LF].

Definition exampleExec (cmd : jsstring) (env : option Env) (p : Process) : Res ExecOutput :=
  if JS.eqb cmd (u "git rev-parse --abbrev-ref HEAD")
  then Ok (mkExecOutput 0 (u "main" ++ [LF]) [])
  else if JS.eqb cmd (u "git branch --remote")
  then Ok (mkExecOutput 0 exampleListing [])
  else Ok (mkExecOutput 0 [] []).

Definition examplePlatform : Platform := {|
  NEWLINE_PLACEHOLDER := u "<NEWLINE>";
  FIX_COMMIT_MESSAGE_NEWLINES_SCRIPT_PATH := u "/app/lib/utils/fix-commit-message-newlines.js";
  path_resolve := fun _ dir => dir;
  sh_exec := exampleExec
|}.

(** A platform whose [sh.exec] always raises. *)
Definition failingPlatform : Platform := {|
  NEWLINE_PLACEHOLDER := u "<NEWLINE>";
  FIX_COMMIT_MESSAGE_NEWLINES_SCRIPT_PATH := u "/app/lib/utils/fix-commit-message-newlines.js";
  path_resolve := fun _ dir => dir;
  sh_exec := fun _ _ _ => Throw (HostError (u "spawn failed"))
|}.

Definition exampleRepo : GitRepo :=
  mkGitRepo (u "/tmp/work/repo") (u "repo")
    (u "/tmp/work/repo/.git/.git-credentials--1700000000000") false.

Definition exampleState : State :=
  mkState exampleRepo (mkProcess (u "/home/user") [] [(u "PATH", Some (u "/usr/bin"))] []).

(** ** Vocabulary of the further properties *)

(** The commands handed to [sh.exec] so far with the environment each
    one got, oldest first. *)
Definition executions (p : Process) : list (jsstring * option Env) :=
  flat_map (fun e => match e with Exec _ cmd env => [(cmd, env)] | _ => [] end) (history p).

(** The calls that touch the file system directly. *)
Definition isFileEvent (e : Event) : bool :=
  match e with
  | Rm _ | WriteFile _ _ | Chmod _ _ => true
  | _ => false
  end.

Definition fileEvents (p : Process) : list Event := filter isFileEvent (history p).

(** The two calls that write: [ShellString.to] and [sh.chmod]. *)
Definition isWriteEvent (e : Event) : bool :=
  match e with
  | WriteFile _ _ | Chmod _ _ => true
  | _ => false
  end.

(** [env[k]]: [None] when the key is missing. *)
Fixpoint envGet (k : jsstring) (e : Env) : option (option jsstring) :=
  match e with
  | [] => None
  | (k', v) :: r => if JS.eqb k k' then Some v else envGet k r
  end.

(** The state [st'] is the one a run of [execInRepo] leaves behind when
    [sh.exec] raises [e] for its command: that command is the last one
    run, and nothing was done after the directory was restored. *)
Definition raisedLast `{Platform} (st' : State) (e : Exn) : Prop :=
  exists st0 partialCmd cmdOpts envVars,
    sh_exec (composed partialCmd cmdOpts) (handedEnv (proc st0) envVars)
      (inside st0 partialCmd cmdOpts envVars) = Throw e /\
    st' = after st0 partialCmd cmdOpts envVars (Throw e).

(** The remote of a [getRemoteBranches] call has no regular-expression
    syntax character, so that the pattern built from it is the literal
    prefix; the other calls build no pattern. *)
Definition literalCall (c : Call) : bool :=
  match c with
  | CallGetRemoteBranches remote => literalSource (remote ++ u "/")
  | _ => true
  end.

(** [sh.exec] returns for every command, whatever the exit code. *)
Definition neverRaises `{Platform} : Prop :=
  forall cmd env p, exists out, sh_exec cmd env p = Ok out.

(** A computation whose every run is related by [R] to the state it
    started from. *)
Definition keeps (R : State -> State -> Prop) {A} (m : M A) : Prop :=
  forall st, R st (snd (m st)).

(** The operations that change the session or touch files themselves. *)
Definition touchesFiles (c : Call) : bool :=
  match c with
  | CallDestroy | CallSetUserInfo _ _ _ => true
  | _ => false
  end.

(** The session is the same object with the same fields. *)
Definition sameSession (st st' : State) : Prop := repo st' = repo st.

(** Every command run in between ran in the session's directory. *)
Definition ranInDirectory `{Platform} (st st' : State) : Prop :=
  directory (repo st') = directory (repo st) /\
  cwd (proc st') = cwd (proc st) /\
  exists n,
    execDirs (proc st')
    = execDirs (proc st) ++ repeat (path_resolve (cwd (proc st)) (directory (repo st))) n.

(** No file was written, changed or removed in between. *)
Definition noFileTouched (st st' : State) : Prop :=
  fileEvents (proc st') = fileEvents (proc st).

(** The directories handed to [sh.rm] so far. *)
Definition removed (p : Process) : list jsstring :=
  flat_map (fun e => match e with Rm d => [d] | _ => [] end) (history p).

(** Nothing was removed in between and the session is the same. *)
Definition nothingRemoved (st st' : State) : Prop :=
  repo st' = repo st /\ removed (proc st') = removed (proc st).

(** What a result throws, if anything. *)
Definition outcome {A} (r : Res A) : option Exn :=
  match r with
  | Ok _ => None
  | Throw e => Some e
  end.

(** A computation whose every run satisfies [T], a relation between the
    state before, what was thrown and the state after. *)
Definition holds (T : State -> option Exn -> State -> Prop) {A} (m : M A) : Prop :=
  forall st, T st (outcome (fst (m st))) (snd (m st)).

(** On a live session nothing is thrown and the session stays live. *)
Definition returnsLive (st : State) (x : option Exn) (st' : State) : Prop :=
  destroyed (repo st) = false -> x = None /\ destroyed (repo st') = false.

(** The session is unchanged, and what is thrown is the
    session-destroyed error on a destroyed session or what [sh.exec]
    raised for the last command run. *)
Definition blamed `{Platform} (st : State) (x : option Exn) (st' : State) : Prop :=
  repo st' = repo st /\
  forall e, x = Some e ->
    (e = RepositoryDestroyed /\ destroyed (repo st) = true) \/ raisedLast st' e.

(** A line of text: no carriage return and no line feed in it. *)
Definition isLine (s : jsstring) : bool :=
  forallb (fun c => negb ((c =? CR) || (c =? LF))) s.

(** A platform on which [git remote remove] fails with exit code 2 and
    every other command prints nothing and succeeds. *)
Definition removeFailsPlatform : Platform := {|
  NEWLINE_PLACEHOLDER := u "<NEWLINE>";
  FIX_COMMIT_MESSAGE_NEWLINES_SCRIPT_PATH := u "/app/lib/utils/fix-commit-message-newlines.js";
  path_resolve := fun _ dir => dir;
  sh_exec := fun cmd _ _ =>
    if startsWith cmd (u "git remote remove")
    then Ok (mkExecOutput 2 [] (u "error: No such remote"))
    else Ok (mkExecOutput 0 [] [])
|}.

(** * Properties *)

(** ** Strings *)

Section StringFacts.

Lemma eqb_refl (a : jsstring) : JS.eqb a a = true.
Proof.
  induction a as [|x a IH]; simpl; [reflexivity|].
  now rewrite N.eqb_refl, IH.
Qed.

Lemma eqb_eq (a b : jsstring) : JS.eqb a b = true <-> a = b.
Proof.
  split.
  - revert b; induction a as [|x a IH]; intros [|y b]; simpl; try discriminate; auto.
    intros E. apply andb_true_iff in E as [E1 E2].
    apply N.eqb_eq in E1. apply IH in E2. now subst.
  - intros ->. apply eqb_refl.
Qed.

Lemma startsWith_app (p r : jsstring) : startsWith (p ++ r) p = true.
Proof.
  induction p as [|x p IH]; simpl; [reflexivity|].
  now rewrite N.eqb_refl, IH.
Qed.

Lemma startsWith_inv (s p : jsstring) :
  startsWith s p = true -> s = p ++ skipn (length p) s.
Proof.
  revert s; induction p as [|x p IH]; intros s E; simpl in *; [reflexivity|].
  destruct s as [|y s]; [discriminate|].
  apply andb_true_iff in E as [E1 E2].
  apply N.eqb_eq in E1. subst y. simpl. f_equal. now apply IH.
Qed.

Lemma trimStart_all (ws s : jsstring) :
  forallb isWhiteSpace ws = true -> trimStart (ws ++ s) = trimStart s.
Proof.
  induction ws as [|c ws IH]; simpl; [reflexivity|].
  intros E. apply andb_true_iff in E as [E1 E2]. now rewrite E1, IH.
Qed.

Lemma trimStart_shape (s : jsstring) :
  trimStart s = [] \/ exists c r, trimStart s = c :: r /\ isWhiteSpace c = false.
Proof.
  induction s as [|c s IH]; simpl; [now left|].
  destruct (isWhiteSpace c) eqn:E; [exact IH|].
  right. now exists c, s.
Qed.

Lemma trimStart_head (c : N) (r : jsstring) :
  isWhiteSpace c = false -> trimStart (c :: r) = c :: r.
Proof. intros E. simpl. now rewrite E. Qed.

Lemma trimStart_idem (s : jsstring) : trimStart (trimStart s) = trimStart s.
Proof.
  destruct (trimStart_shape s) as [E | (c & r & E & Hc)]; rewrite E.
  - reflexivity.
  - now apply trimStart_head.
Qed.

Lemma trimStart_app_l (s x : jsstring) :
  trimStart s <> [] -> trimStart (s ++ x) = trimStart s ++ x.
Proof.
  induction s as [|c s IH]; simpl; [congruence|].
  destruct (isWhiteSpace c); auto.
Qed.

Lemma trimStart_nil_all (s : jsstring) :
  trimStart s = [] -> forallb isWhiteSpace s = true.
Proof.
  induction s as [|c s IH]; simpl; [reflexivity|].
  destruct (isWhiteSpace c); [auto|discriminate].
Qed.

Lemma forallb_rev (A : Type) (f : A -> bool) (l : list A) :
  forallb f (rev l) = forallb f l.
Proof.
  induction l as [|a l IH]; simpl; [reflexivity|].
  rewrite forallb_app, IH. simpl. rewrite andb_true_r. apply andb_comm.
Qed.

Lemma trimEnd_all (s ws : jsstring) :
  forallb isWhiteSpace ws = true -> trimEnd (s ++ ws) = trimEnd s.
Proof.
  intros E. unfold trimEnd. rewrite rev_app_distr, trimStart_all; [reflexivity|].
  now rewrite forallb_rev.
Qed.

Lemma trimEnd_idem (s : jsstring) : trimEnd (trimEnd s) = trimEnd s.
Proof. unfold trimEnd. now rewrite rev_involutive, trimStart_idem. Qed.

Lemma trimEnd_head (c : N) (r : jsstring) :
  isWhiteSpace c = false -> trimEnd (c :: r) = c :: trimEnd r.
Proof.
  intros E. unfold trimEnd. simpl rev.
  destruct (trimStart_shape (rev r)) as [E0 | (d & t & E0 & Hd)].
  - rewrite E0. simpl.
    rewrite trimStart_all by now apply trimStart_nil_all.
    now rewrite trimStart_head.
  - rewrite trimStart_app_l by congruence.
    now rewrite rev_app_distr.
Qed.

Lemma trim_idem (s : jsstring) : trim (trim s) = trim s.
Proof.
  unfold trim.
  destruct (trimStart_shape s) as [E | (c & r & E & Hc)]; rewrite E.
  - reflexivity.
  - rewrite (trimEnd_head c r Hc), (trimStart_head c _ Hc), (trimEnd_head c _ Hc).
    now rewrite trimEnd_idem.
Qed.

Lemma trim_surrounded (ws s ws' : jsstring) :
  forallb isWhiteSpace ws = true -> forallb isWhiteSpace ws' = true ->
  trim (ws ++ s ++ ws') = trim s.
Proof.
  intros E E'. unfold trim. rewrite (trimStart_all ws _ E).
  destruct (trimStart s) as [|c r] eqn:Es.
  - rewrite trimStart_all by now apply trimStart_nil_all.
    destruct (trimStart_shape ws') as [E0 | (d & t & E0 & Hd)].
    + now rewrite E0.
    + exfalso. clear - E' E0 Hd.
      induction ws' as [|x ws' IH]; simpl in *; [discriminate|].
      apply andb_true_iff in E' as [E1 E2]. rewrite E1 in E0. auto.
  - rewrite trimStart_app_l by congruence.
    rewrite Es. now apply trimEnd_all.
Qed.

Lemma trim_app_space (s : jsstring) : trim (s ++ [SP]) = trim s.
Proof.
  rewrite <- (trim_surrounded [] s [SP]); reflexivity.
Qed.

Lemma trim_fixed (c : N) (r : jsstring) :
  isWhiteSpace c = false -> trimEnd r = r -> trim (c :: r) = c :: r.
Proof.
  intros Hc Hr. unfold trim.
  now rewrite (trimStart_head c _ Hc), (trimEnd_head c _ Hc), Hr.
Qed.

End StringFacts.

(** ** Splitting, joining and restoring *)

Section SplitJoin.

Lemma join_cons (sep a : jsstring) (l : list jsstring) :
  l <> [] -> join sep (a :: l) = a ++ sep ++ join sep l.
Proof. destruct l; [congruence|reflexivity]. Qed.

Lemma consHead_not_nil (c : N) (l : list jsstring) : consHead c l <> [].
Proof. destruct l; discriminate. Qed.

Lemma join_consHead (sep : jsstring) (c : N) (l : list jsstring) :
  l <> [] -> join sep (consHead c l) = c :: join sep l.
Proof.
  destruct l as [|a [|b r]]; [congruence| |]; reflexivity.
Qed.

Lemma splitNewlines_not_nil (s : jsstring) : splitNewlines s <> [].
Proof.
  destruct s as [|c r]; simpl; [discriminate|].
  destruct (c =? LF); [discriminate|].
  destruct r as [|d r']; [apply consHead_not_nil|].
  destruct ((c =? CR) && (d =? LF)); [discriminate|apply consHead_not_nil].
Qed.

(** Without a carriage return before a line feed, joining the pieces
    with line feeds gives the text back. *)
Lemma join_splitNewlines (s : jsstring) :
  CommitMessage.hasCRLF s = false -> join [LF] (splitNewlines s) = s.
Proof.
  induction s as [|c r IH]; [reflexivity|].
  intros Hs.
  assert (Hr : CommitMessage.hasCRLF r = false).
  { simpl in Hs. destruct r as [|d r']; [reflexivity|].
    now apply orb_false_iff in Hs as [_ Hs]. }
  specialize (IH Hr).
  cbn [splitNewlines].
  destruct (c =? LF) eqn:Ec.
  - apply N.eqb_eq in Ec. subst c.
    rewrite join_cons by apply splitNewlines_not_nil. now rewrite IH.
  - destruct r as [|d r'].
    + reflexivity.
    + cbn [CommitMessage.hasCRLF] in Hs.
      apply orb_false_iff in Hs as [Hcd _]. rewrite Hcd.
      rewrite join_consHead by apply splitNewlines_not_nil. now rewrite IH.
Qed.

Lemma In_consHead (c : N) (l : list jsstring) (line : jsstring) (x : N) :
  In line (consHead c l) -> In x line ->
  x = c \/ exists line', In line' l /\ In x line'.
Proof.
  destruct l as [|h t]; simpl.
  - intros [<- | []] [-> | []]. now left.
  - intros [<- | Hin] Hx.
    + destruct Hx as [-> | Hx]; [now left|]. right. exists h. auto.
    + right. exists line. auto.
Qed.

(** Every code unit of a piece comes from the text that was split. *)
Lemma splitNewlines_In (s line : jsstring) (x : N) :
  In line (splitNewlines s) -> In x line -> In x s.
Proof.
  revert line.
  induction s as [s IH] using (well_founded_induction
    (Wf_nat.well_founded_ltof _ (@length N))).
  intros line Hl Hx. unfold Wf_nat.ltof in IH.
  destruct s as [|c r]; simpl in Hl.
  - destruct Hl as [<- | []]. destruct Hx.
  - destruct (c =? LF).
    + destruct Hl as [<- | Hl]; [destruct Hx|].
      right. apply (IH r) with line; simpl; auto.
    + destruct r as [|d r'].
      * simpl in Hl. destruct Hl as [<- | []]. exact Hx.
      * destruct ((c =? CR) && (d =? LF)).
        -- destruct Hl as [<- | Hl]; [destruct Hx|].
           right. right. apply (IH r') with line; simpl; auto.
        -- destruct (In_consHead _ _ _ _ Hl Hx) as [-> | (l' & Hl' & Hx')].
           ++ now left.
           ++ right. apply (IH (d :: r')) with l'; simpl; auto.
Qed.

Lemma restoreFrom_nil_text (ph : jsstring) (k : nat) : CommitMessage.restoreFrom ph k [] = [].
Proof. reflexivity. Qed.

Lemma restoreFrom_skip (ph a t : jsstring) :
  CommitMessage.restoreFrom ph (length a) (a ++ t) = CommitMessage.restoreFrom ph 0 t.
Proof.
  induction a as [|x a IH]; simpl.
  - destruct t; reflexivity.
  - exact IH.
Qed.

Lemma restoreFrom_placeholder (c : N) (rest t : jsstring) :
  CommitMessage.restoreFrom (c :: rest) 0 ((c :: rest) ++ t)
  = LF :: CommitMessage.restoreFrom (c :: rest) 0 t.
Proof.
  change ((c :: rest) ++ t) with (c :: (rest ++ t)).
  cbn [CommitMessage.restoreFrom].
  change (c :: (rest ++ t)) with ((c :: rest) ++ t).
  rewrite startsWith_app. cbn [truthy andb]. f_equal.
  replace (length (c :: rest) - 1)%nat with (length rest) by (simpl; lia).
  apply restoreFrom_skip.
Qed.

Lemma restoreFrom_line (c : N) (rest line t : jsstring) :
  ~ In c line ->
  CommitMessage.restoreFrom (c :: rest) 0 (line ++ t)
  = line ++ CommitMessage.restoreFrom (c :: rest) 0 t.
Proof.
  induction line as [|x line IH]; intros Hc; [reflexivity|].
  change ((x :: line) ++ t) with (x :: (line ++ t)).
  cbn [CommitMessage.restoreFrom startsWith truthy andb].
  assert (E : (c =? x) = false).
  { apply N.eqb_neq. intros ->. apply Hc. now left. }
  rewrite E. cbn [andb]. simpl. f_equal. apply IH.
  intros Hin. apply Hc. now right.
Qed.

(** Restoring undoes the join, when the placeholder starts with a code
    unit that no piece contains. *)
Lemma restoreFrom_join (c : N) (rest : jsstring) (lines : list jsstring) :
  (forall line, In line lines -> ~ In c line) ->
  CommitMessage.restoreFrom (c :: rest) 0 (join (c :: rest) lines) = join [LF] lines.
Proof.
  induction lines as [|a l IH]; intros Hc; [reflexivity|].
  destruct l as [|b l].
  - simpl join. rewrite <- (app_nil_r a) at 1.
    rewrite restoreFrom_line by (apply Hc; now left).
    now rewrite restoreFrom_nil_text, app_nil_r.
  - rewrite !join_cons by discriminate.
    rewrite restoreFrom_line by (apply Hc; now left).
    rewrite restoreFrom_placeholder. rewrite IH; [reflexivity|].
    intros line Hin. apply Hc. now right.
Qed.

End SplitJoin.

(** ** Option objects *)

Section ObjectFacts.

Lemma get_set (k : jsstring) (v : OptValue) (o : ICommnandOptions) :
  Obj.get k (Obj.set k v o) = Some v.
Proof.
  induction o as [|[k' v'] o IH]; simpl.
  - now rewrite eqb_refl.
  - destruct (JS.eqb k k') eqn:E; simpl; now rewrite E.
Qed.

Lemma without_set (k : jsstring) (v : OptValue) (o : ICommnandOptions) :
  Obj.without k (Obj.set k v o) = Obj.without k o.
Proof.
  unfold Obj.without.
  induction o as [|[k' v'] o IH]; simpl.
  - now rewrite eqb_refl.
  - destruct (JS.eqb k k') eqn:E; simpl; rewrite E; simpl; [reflexivity|].
    now rewrite IH.
Qed.

Lemma get_without (k : jsstring) (o : ICommnandOptions) :
  Obj.get k (Obj.without k o) = None.
Proof.
  unfold Obj.without.
  induction o as [|[k' v'] o IH]; simpl; [reflexivity|].
  destruct (JS.eqb k k') eqn:E; simpl; [exact IH|].
  now rewrite E.
Qed.

Lemma without_idem (k : jsstring) (o : ICommnandOptions) :
  Obj.without k (Obj.without k o) = Obj.without k o.
Proof.
  unfold Obj.without.
  induction o as [|[k' v'] o IH]; simpl; [reflexivity|].
  destruct (JS.eqb k k') eqn:E; simpl; [exact IH|].
  now rewrite E, IH.
Qed.

(** With a list under the reserved key, the command is the one without
    that key, then the separator, then the list joined by spaces. *)
Lemma withOptions_trailing (cmd : jsstring) (o : ICommnandOptions) (args : list jsstring) :
  Obj.get (u "--") o = Some (VList args) ->
  CommandBuilder.withOptions cmd (Some o)
  = CommandBuilder.withOptions cmd (Some (Obj.without (u "--") o))
    ++ u " -- " ++ join [SP] args.
Proof.
  intros Hg. unfold CommandBuilder.withOptions. cbn [Obj.spread].
  rewrite Hg, get_without, without_idem. reflexivity.
Qed.

End ObjectFacts.

(** ** Running a command in the repository *)

Section Execution.

Context `{Platform}.

Lemma forEach_debug (f : jsstring -> jsstring) (l : list jsstring) (st : State) :
  forEach l (fun line => logger_debug (f line)) st
  = (Ok tt,
     mkState (repo st)
       (mkProcess (cwd (proc st)) (dirStack (proc st)) (processEnv (proc st))
          (history (proc st) ++ map (fun line => Debug (f line)) l))).
Proof.
  revert st. induction l as [|a l IH]; intros [r [c d e h]]; simpl.
  - unfold ret. now rewrite app_nil_r.
  - unfold bind, logger_debug, updProc, record. simpl.
    rewrite IH. simpl. now rewrite <- app_assoc.
Qed.

Lemma execInRepo_destroyed (partialCmd : jsstring) (cmdOpts : option ICommnandOptions)
    (envVars : option Env) (st : State) :
  destroyed (repo st) = true ->
  execInRepo partialCmd cmdOpts envVars st = (Throw RepositoryDestroyed, st).
Proof.
  intros Hd. unfold execInRepo, bind, getState. now rewrite Hd.
Qed.

Lemma execInRepo_run (partialCmd : jsstring) (cmdOpts : option ICommnandOptions)
    (envVars : option Env) (st : State) :
  destroyed (repo st) = false ->
  let r := sh_exec (composed partialCmd cmdOpts) (handedEnv (proc st) envVars)
             (inside st partialCmd cmdOpts envVars) in
  execInRepo partialCmd cmdOpts envVars st = (r, after st partialCmd cmdOpts envVars r).
Proof.
  intros Hd r. subst r.
  unfold execInRepo. unfold bind at 1. unfold getState at 1. rewrite Hd.
  unfold tryFinally, after, inside, composed, handedEnv.
  destruct st as [rp [c d e h]].
  unfold bind at 1. unfold sh_pushd at 1. unfold updProc at 1.
  unfold bind at 1. unfold getState at 1.
  unfold bind at 1. unfold logger_debug at 1. unfold updProc at 1.
  unfold bind at 1. unfold sh_exec_call at 1.
  unfold record. cbn [repo proc cwd dirStack processEnv history].
  rewrite <- !app_assoc. cbn [app].
  match goal with |- context [sh_exec ?a ?b ?c] => destruct (sh_exec a b c) as [out|e0] end.
  - unfold bind at 1. rewrite forEach_debug. unfold ret, sh_popd, updProc.
    cbn [repo proc cwd dirStack processEnv history outputLog].
    rewrite <- !app_assoc. reflexivity.
  - unfold sh_popd, updProc.
    cbn [repo proc cwd dirStack processEnv history outputLog app].
    rewrite <- !app_assoc. reflexivity.
Qed.

Lemma commands_after (st : State) (partialCmd : jsstring) (cmdOpts : option ICommnandOptions)
    (envVars : option Env) (r : Res ExecOutput) :
  commands (proc (after st partialCmd cmdOpts envVars r))
  = commands (proc st) ++ [composed partialCmd cmdOpts].
Proof.
  unfold after, commands. cbn [proc history].
  rewrite !flat_map_app. f_equal. cbn [flat_map app].
  destruct r as [out|e0]; simpl; [|reflexivity].
  rewrite app_nil_r.
  induction (filter _ _) as [|a l IH]; simpl; auto.
Qed.

(** An operation that is one [execInRepo] whose result is dropped. *)
Lemma exec_then_ret (partialCmd : jsstring) (cmdOpts : option ICommnandOptions)
    (envVars : option Env) (st : State) :
  destroyed (repo st) = false ->
  let r := sh_exec (composed partialCmd cmdOpts) (handedEnv (proc st) envVars)
             (inside st partialCmd cmdOpts envVars) in
  bind (execInRepo partialCmd cmdOpts envVars) (fun _ => ret tt) st
  = (match r with Ok _ => Ok tt | Throw e => Throw e end,
     after st partialCmd cmdOpts envVars r).
Proof.
  intros Hd r. unfold bind. rewrite (execInRepo_run _ _ _ _ Hd). fold r.
  destruct r; reflexivity.
Qed.

End Execution.

(** ** Rendering of options *)

Section Rendering.

Lemma without_absent (k : jsstring) (o : ICommnandOptions) :
  Obj.get k o = None -> Obj.without k o = o.
Proof.
  unfold Obj.without.
  induction o as [|[k' v'] o IH]; simpl; [reflexivity|].
  destruct (JS.eqb k k') eqn:E; [discriminate|].
  intros Hg. simpl. now rewrite IH.
Qed.

Lemma get_dropUnset (o : ICommnandOptions) :
  Obj.get (u "--") (dropUnset o) = Obj.get (u "--") o.
Proof.
  unfold dropUnset.
  induction o as [|[k v] o IH]; [reflexivity|].
  cbn [filter Obj.get]. unfold unsetFlag at 1. cbn [fst snd].
  destruct (JS.eqb (u "--") k) eqn:E; cbn [negb andb].
  - cbn [Obj.get]. now rewrite E.
  - destruct (CommandBuilder.retain v); cbn [negb]; [|exact IH].
    cbn [Obj.get]. now rewrite E.
Qed.

Lemma retained_dropUnset (o : ICommnandOptions) :
  CommandBuilder.retainedEntries (Obj.without (u "--") (dropUnset o))
  = CommandBuilder.retainedEntries (Obj.without (u "--") o).
Proof.
  unfold dropUnset, Obj.without.
  induction o as [|[k v] o IH]; [reflexivity|].
  cbn [filter]. unfold unsetFlag at 1. cbn [fst snd].
  destruct (JS.eqb (u "--") k) eqn:E; cbn [negb andb filter fst].
  - rewrite E. cbn [negb]. exact IH.
  - destruct (CommandBuilder.retain v) eqn:Ev; cbn [negb filter fst].
    + rewrite E. cbn [negb CommandBuilder.retainedEntries]. now rewrite Ev, IH.
    + cbn [CommandBuilder.retainedEntries]. now rewrite Ev.
Qed.

Lemma withOptions_dropUnset (cmd : jsstring) (o : ICommnandOptions) :
  CommandBuilder.withOptions cmd (Some o) = CommandBuilder.withOptions cmd (Some (dropUnset o)).
Proof.
  unfold CommandBuilder.withOptions, CommandBuilder.normalizedCmdOpts. cbn [Obj.spread].
  now rewrite get_dropUnset, retained_dropUnset.
Qed.

Lemma withOptions_none (cmd : jsstring) : CommandBuilder.withOptions cmd None = cmd.
Proof. reflexivity. Qed.

Lemma withOptions_flags (cmd : jsstring) (o : ICommnandOptions) :
  Obj.get (u "--") o = None ->
  CommandBuilder.withOptions cmd (Some o)
  = cmd ++ match CommandBuilder.retainedEntries o with
           | [] => []
           | es => [SP] ++ join [SP] (map (fun e => rendered (fst e) (snd e)) es)
           end.
Proof.
  intros Hg. unfold CommandBuilder.withOptions, CommandBuilder.normalizedCmdOpts.
  cbn [Obj.spread]. rewrite Hg, (without_absent _ _ Hg). cbn [CommandBuilder.truthyValue option_map].
  destruct (CommandBuilder.retainedEntries o) as [|e es].
  - simpl. now rewrite app_nil_r.
  - rewrite map_map. reflexivity.
Qed.

Lemma trim_flagName (key : jsstring) :
  trimEnd key = key -> trim (CommandBuilder.flagName key) = CommandBuilder.flagName key.
Proof.
  intros Hk. unfold CommandBuilder.flagName.
  destruct (Nat.eqb (length key) 1); cbn [u app].
  - now apply trim_fixed.
  - apply trim_fixed; [reflexivity|].
    rewrite trimEnd_head by reflexivity. now rewrite Hk.
Qed.

Lemma rendered_true (key : jsstring) :
  trimEnd key = key -> rendered key RTrue = CommandBuilder.flagName key.
Proof.
  intros Hk. unfold rendered, CommandBuilder.renderOpt.
  cbn [fst snd CommandBuilder.normalizeValue map join].
  rewrite app_nil_r, trim_app_space. now apply trim_flagName.
Qed.

Lemma flagName_dashes (key : jsstring) :
  CommandBuilder.flagName key = OptionSpec.dashes key ++ key.
Proof. destruct key as [|a [|b key]]; reflexivity. Qed.

Lemma rendered_occurrences (key : jsstring) (v : OptValue) (rv : Retained) :
  CommandBuilder.retain v = Some rv ->
  exists vs,
    OptionSpec.values v = Some vs /\
    rendered key rv = join [SP] (map (OptionSpec.occurrence key) vs).
Proof.
  intros Hr. unfold rendered, CommandBuilder.renderOpt. cbn [fst snd].
  assert (Hocc : forall vs,
            map (fun value => trim (CommandBuilder.flagName key ++ [SP] ++ value)) vs
            = map (OptionSpec.occurrence key) vs).
  { intros vs. apply map_ext. intros value. unfold OptionSpec.occurrence.
    now rewrite flagName_dashes, <- app_assoc. }
  destruct v as [|[|]|s|l]; cbn in Hr; inversion Hr; subst; cbn [CommandBuilder.normalizeValue];
    eexists; (split; [reflexivity|]); now rewrite Hocc.
Qed.

Lemma retained_none (v : OptValue) :
  CommandBuilder.retain v = None -> OptionSpec.values v = None.
Proof. destruct v as [|[|]|s|l]; cbn; congruence. Qed.

Lemma rendered_flags (o : ICommnandOptions) :
  map (fun e => rendered (fst e) (snd e)) (CommandBuilder.retainedEntries o)
  = OptionSpec.flags o.
Proof.
  induction o as [|[k v] o IH]; [reflexivity|].
  cbn [CommandBuilder.retainedEntries OptionSpec.flags].
  destruct (CommandBuilder.retain v) as [rv|] eqn:Hr.
  - destruct (rendered_occurrences k v rv Hr) as (vs & Hv & Hrv).
    rewrite Hv. cbn [map fst snd]. now rewrite Hrv, IH.
  - now rewrite (retained_none v Hr).
Qed.

Lemma withOptions_refines (cmd : jsstring) (o : ICommnandOptions) :
  Obj.get (u "--") o = None ->
  CommandBuilder.withOptions cmd (Some o) = OptionSpec.command cmd o.
Proof.
  intros Hg. rewrite (withOptions_flags cmd o Hg). unfold OptionSpec.command.
  rewrite <- rendered_flags.
  destruct (CommandBuilder.retainedEntries o); [apply app_nil_r|reflexivity].
Qed.

(** C4. Option rendering.  A flag whose value is [false] or [undefined]
    leaves no trace in the command: dropping all such flags from the
    object gives the same string.  The retained flags are rendered in
    the object's order, separated by single spaces; a list value renders
    the flag once per element, in list order, each occurrence being the
    trimmed text `flag value`; [true] renders the bare flag; a name of
    length 1 gets one dash and a longer name two.  A string value renders
    the flag once, with that value.  Altogether, for an object without
    trailing arguments, [withOptions] gives the command that
    [OptionSpec.command] spells out in the words of the specification. *)
Theorem option_rendering :
  (forall cmd o,
     CommandBuilder.withOptions cmd (Some o)
     = CommandBuilder.withOptions cmd (Some (dropUnset o))) /\
  (forall cmd o,
     Obj.get (u "--") o = None ->
     CommandBuilder.withOptions cmd (Some o)
     = cmd ++ match CommandBuilder.retainedEntries o with
              | [] => []
              | es => [SP] ++ join [SP] (map (fun e => rendered (fst e) (snd e)) es)
              end) /\
  (forall key values,
     rendered key (RList values)
     = join [SP] (map (fun value => trim (CommandBuilder.flagName key ++ [SP] ++ value)) values)) /\
  (forall key, trimEnd key = key -> rendered key RTrue = CommandBuilder.flagName key) /\
  (forall key, length key = 1%nat -> CommandBuilder.flagName key = u "-" ++ key) /\
  (forall key, (2 <= length key)%nat -> CommandBuilder.flagName key = u "--" ++ key) /\
  CommandBuilder.withOptions (u "git log") (Some [(u "name", VList [u "a"; u "b"])])
  = u "git log --name a --name b" /\
  CommandBuilder.withOptions (u "git log") (Some [(u "x", VBool true)]) = u "git log -x" /\
  (forall cmd o,
     Obj.get (u "--") o = None ->
     CommandBuilder.withOptions cmd (Some o) = OptionSpec.command cmd o) /\
  (forall cmd key value,
     JS.eqb (u "--") key = false ->
     CommandBuilder.withOptions cmd (Some [(key, VStr value)])
     = cmd ++ [SP] ++ trim (OptionSpec.dashes key ++ key ++ [SP] ++ value)) /\
  (forall cmd key values,
     JS.eqb (u "--") key = false ->
     CommandBuilder.withOptions cmd (Some [(key, VList values)])
     = cmd ++ [SP] ++
       join [SP] (map (fun value => trim (OptionSpec.dashes key ++ key ++ [SP] ++ value))
                    values)) /\
  (forall cmd key,
     JS.eqb (u "--") key = false ->
     CommandBuilder.withOptions cmd (Some [(key, VBool true)])
     = cmd ++ [SP] ++ trim (OptionSpec.dashes key ++ key)) /\
  (forall cmd key v,
     v = VBool false \/ v = VUndefined ->
     CommandBuilder.withOptions cmd (Some [(key, v)]) = cmd) /\
  CommandBuilder.withOptions (u "git log") (Some [(u "n", VStr (u "3"))]) = u "git log -n 3" /\
  CommandBuilder.withOptions (u "git log")
    (Some [(u "q", VBool false); (u "n", VStr (u "3")); (u "all", VUndefined);
           (u "name", VList [u "a"; u "b"]); (u "x", VBool true); (u "author", VStr (u "me"))])
  = u "git log -n 3 --name a --name b -x --author me".
Proof.
  split; [exact withOptions_dropUnset|].
  split; [exact withOptions_flags|].
  split; [reflexivity|].
  split; [exact rendered_true|].
  split.
  { intros key Hk. unfold CommandBuilder.flagName. now rewrite Hk. }
  split.
  { intros key Hk. unfold CommandBuilder.flagName.
    destruct (Nat.eqb_spec (length key) 1) as [E|E]; [lia|reflexivity]. }
  split; [reflexivity|].
  split; [reflexivity|].
  split; [exact withOptions_refines|].
  split.
  { intros cmd key value Hk. rewrite withOptions_refines by (cbn [Obj.get]; now rewrite Hk).
    reflexivity. }
  split.
  { intros cmd key values Hk. rewrite withOptions_refines by (cbn [Obj.get]; now rewrite Hk).
    reflexivity. }
  split.
  { intros cmd key Hk. rewrite withOptions_refines by (cbn [Obj.get]; now rewrite Hk).
    unfold OptionSpec.command. cbn [OptionSpec.flags OptionSpec.values map join].
    unfold OptionSpec.occurrence.
    rewrite (app_nil_r [SP]), (app_assoc (OptionSpec.dashes key) key [SP]).
    now rewrite trim_app_space. }
  split.
  { intros cmd key v [-> | ->].
    - unfold CommandBuilder.withOptions. cbn [Obj.spread Obj.get Obj.without filter fst].
      destruct (JS.eqb (u "--") key); reflexivity.
    - unfold CommandBuilder.withOptions. cbn [Obj.spread Obj.get Obj.without filter fst].
      destruct (JS.eqb (u "--") key); reflexivity. }
  split; reflexivity.
Qed.

Lemma option_rendering_witness :
  CommandBuilder.withOptions (u "git log")
    (Some [(u "q", VBool false); (u "n", VStr (u "3")); (u "all", VUndefined)])
  = u "git log" ++ [SP] ++ rendered (u "n") (RStr (u "3"))
  /\ rendered (u "v") RTrue = u "-v"
  /\ CommandBuilder.flagName (u "x") = u "-x"
  /\ CommandBuilder.flagName (u "name") = u "--name".
Proof.
  split.
  { rewrite (proj1 option_rendering).
    apply (proj1 (proj2 option_rendering) (u "git log") [(u "n", VStr (u "3"))]).
    reflexivity. }
  split.
  { apply (proj1 (proj2 (proj2 (proj2 option_rendering))) (u "v")). reflexivity. }
  split.
  { apply (proj1 (proj2 (proj2 (proj2 (proj2 option_rendering)))) (u "x")). reflexivity. }
  apply (proj1 (proj2 (proj2 (proj2 (proj2 (proj2 option_rendering))))) (u "name")).
  simpl. lia.
Defined.

End Rendering.

(** ** Trailing arguments *)

Section Trailing.

Context `{Platform}.

(** C5. Trailing arguments.  When the reserved key holds a list, the
    command is the base command with all the other flags rendered,
    followed by the separator ` -- ` and the list joined by single
    spaces, in the order given; [stage files opts] runs `git add` with
    [files] rendered this way after the flags of [opts]. *)
Theorem trailing_arguments :
  (forall cmd o args,
     Obj.get (u "--") o = Some (VList args) ->
     CommandBuilder.withOptions cmd (Some o)
     = CommandBuilder.withOptions cmd (Some (Obj.without (u "--") o))
       ++ u " -- " ++ join [SP] args) /\
  (forall o, Obj.get (u "--") (Obj.without (u "--") o) = None) /\
  (forall files opts st,
     destroyed (repo st) = false ->
     commands (proc (snd (stage files opts st)))
     = commands (proc st) ++
       [CommandBuilder.withOptions (u "git add") (Some (Obj.without (u "--") (Obj.spread opts)))
        ++ u " -- " ++ join [SP] files]).
Proof.
  split; [exact withOptions_trailing|].
  split; [intros o; apply get_without|].
  intros files opts st Hd. unfold stage.
  rewrite (exec_then_ret _ _ _ _ Hd). cbn [snd].
  rewrite commands_after. f_equal. unfold composed.
  change (trim (u "git add")) with (u "git add").
  rewrite (withOptions_trailing _ _ files) by apply get_set.
  now rewrite without_set.
Qed.

End Trailing.

Lemma trailing_arguments_witness :
  CommandBuilder.withOptions (u "git add")
    (Some [(u "force", VBool true); (u "--", VList [u "a.txt"; u "b.txt"]); (u "v", VBool true)])
  = u "git add --force -v -- a.txt b.txt"
  /\ commands (proc (snd (stage (H := examplePlatform) [u "a.txt"; u "b.txt"]
                            (Some [(u "force", VBool true)]) exampleState)))
     = [u "git add --force -- a.txt b.txt"].
Proof.
  split.
  - exact (proj1 (@trailing_arguments examplePlatform) (u "git add")
             [(u "force", VBool true); (u "--", VList [u "a.txt"; u "b.txt"]); (u "v", VBool true)]
             [u "a.txt"; u "b.txt"] eq_refl).
  - exact (proj2 (proj2 (@trailing_arguments examplePlatform))
             [u "a.txt"; u "b.txt"] (Some [(u "force", VBool true)]) exampleState eq_refl).
Defined.


(** ** The working directory *)

Section WorkingDirectory.

Context `{Platform}.

Lemma keepsDir_ret {A} (a : A) : keepsDir (ret a).
Proof. intros st. split; reflexivity. Qed.

Lemma keepsDir_bind {A B} (m : M A) (k : A -> M B) :
  keepsDir m -> (forall a, keepsDir (k a)) -> keepsDir (bind m k).
Proof.
  intros Hm Hk st. unfold bind.
  destruct (Hm st) as [E1 E2]. destruct (m st) as [[a|e] st1]; cbn [snd] in *.
  - destruct (Hk a st1) as [E3 E4]. split; congruence.
  - now split.
Qed.

Lemma keepsDir_record (e : Event) : keepsDir (updProc (record e)).
Proof. intros st. split; reflexivity. Qed.

Lemma keepsDir_execInRepo (partialCmd : jsstring) (cmdOpts : option ICommnandOptions)
    (envVars : option Env) : keepsDir (execInRepo partialCmd cmdOpts envVars).
Proof.
  intros st. destruct (destroyed (repo st)) eqn:Hd.
  - rewrite (execInRepo_destroyed _ _ _ _ Hd). split; reflexivity.
  - rewrite (execInRepo_run _ _ _ _ Hd). split; reflexivity.
Qed.

Lemma keepsDir_exec_ret (partialCmd : jsstring) (cmdOpts : option ICommnandOptions)
    (envVars : option Env) :
  keepsDir (bind (execInRepo partialCmd cmdOpts envVars) (fun _ => ret tt)).
Proof.
  apply keepsDir_bind; [apply keepsDir_execInRepo|intros; apply keepsDir_ret].
Qed.

Lemma keepsDir_currentBranch : keepsDir currentBranch.
Proof.
  apply keepsDir_bind; [apply keepsDir_execInRepo|intros; apply keepsDir_ret].
Qed.

Lemma keepsDir_config (key value : jsstring) : keepsDir (config key value).
Proof. apply keepsDir_exec_ret. Qed.

Lemma keepsDir_fetch (remote : jsstring) (branch : Arg) (opts : option ICommnandOptions) :
  keepsDir (fetch remote branch opts).
Proof. destruct branch; apply keepsDir_exec_ret. Qed.

Lemma keepsDir_push (remote : jsstring) (localBranch remoteBranch : Arg)
    (opts : option ICommnandOptions) : keepsDir (push remote localBranch remoteBranch opts).
Proof.
  destruct localBranch; [| destruct remoteBranch |]; cbn [push];
    try apply keepsDir_exec_ret;
    (apply keepsDir_bind; [apply keepsDir_currentBranch|intros; apply keepsDir_exec_ret]).
Qed.

Lemma keepsDir_destroy : keepsDir destroy.
Proof.
  intros st. unfold destroy, bind, getState.
  destruct (destroyed (repo st)); split; reflexivity.
Qed.

Lemma keepsDir_setUserInfo (name email : jsstring) (ghToken : option jsstring) :
  keepsDir (setUserInfo name email ghToken).
Proof.
  unfold setUserInfo.
  apply keepsDir_bind; [apply keepsDir_config|intros _].
  apply keepsDir_bind; [apply keepsDir_config|intros _].
  destruct ghToken as [[|c t]|]; try apply keepsDir_ret.
  apply keepsDir_bind; [intros st; split; reflexivity|intros st0].
  apply keepsDir_bind; [apply keepsDir_record|intros _].
  apply keepsDir_bind; [apply keepsDir_record|intros _].
  apply keepsDir_config.
Qed.

Lemma keepsDir_invoke (c : Call) : keepsDir (invoke c).
Proof.
  destruct c; cbn [invoke]; unfold void;
    (apply keepsDir_bind; [|intros; apply keepsDir_ret]).
  - apply keepsDir_currentBranch.
  - unfold addRemote.
    apply keepsDir_bind; [apply keepsDir_execInRepo|intros _; apply keepsDir_exec_ret].
  - apply keepsDir_exec_ret.
  - unfold commit.
    apply keepsDir_bind; [apply keepsDir_execInRepo|intros _; apply keepsDir_exec_ret].
  - apply keepsDir_config.
  - apply keepsDir_push.
  - apply keepsDir_destroy.
  - apply keepsDir_fetch.
  - unfold getRemoteBranches.
    apply keepsDir_bind; [apply keepsDir_fetch|intros _].
    apply keepsDir_bind; [apply keepsDir_execInRepo|intros; apply keepsDir_ret].
  - apply keepsDir_exec_ret.
  - apply keepsDir_push.
  - apply keepsDir_setUserInfo.
  - apply keepsDir_exec_ret.
Qed.

(** C8. Working-directory restoration.  On a live session, [execInRepo]
    changes into the session's directory, runs the command there and
    changes back, whatever [sh.exec] does: return with exit code zero,
    return with another exit code, or raise.  The outcome is handed to the
    caller as it is, and the working directory and the directory stack are
    what they were before the call.  The same holds for every public
    operation, so the next call starts from the directory the previous one
    started from. *)
Theorem working_directory_restored :
  (forall partialCmd cmdOpts envVars st outcome,
     destroyed (repo st) = false ->
     sh_exec (composed partialCmd cmdOpts) (handedEnv (proc st) envVars)
       (inside st partialCmd cmdOpts envVars) = outcome ->
     exists st',
       execInRepo partialCmd cmdOpts envVars st = (outcome, st') /\
       cwd (inside st partialCmd cmdOpts envVars)
       = path_resolve (cwd (proc st)) (directory (repo st)) /\
       history (proc st')
       = history (proc st) ++
         [Pushd (directory (repo st));
          Debug (u "GIT: " ++ composed partialCmd cmdOpts ++ envVarStr envVars);
          Exec (path_resolve (cwd (proc st)) (directory (repo st)))
               (composed partialCmd cmdOpts) (handedEnv (proc st) envVars)] ++
         outputLog outcome ++ [Popd] /\
       cwd (proc st') = cwd (proc st) /\
       dirStack (proc st') = dirStack (proc st)) /\
  (forall c st,
     cwd (proc (snd (invoke c st))) = cwd (proc st) /\
     dirStack (proc (snd (invoke c st))) = dirStack (proc st)).
Proof.
  split.
  - intros partialCmd cmdOpts envVars st outcome Hd Hout.
    exists (after st partialCmd cmdOpts envVars outcome).
    rewrite (execInRepo_run _ _ _ _ Hd), Hout.
    repeat split; reflexivity.
  - intros c st. apply keepsDir_invoke.
Qed.

End WorkingDirectory.

Lemma working_directory_restored_witness :
  exists st',
    execInRepo (H := failingPlatform) (u "git init") None None exampleState
    = (Throw (HostError (u "spawn failed")), st') /\
    execDirs (proc st') = [u "/tmp/work/repo"] /\
    cwd (proc st') = u "/home/user" /\
    dirStack (proc st') = [].
Proof.
  destruct (proj1 (@working_directory_restored failingPlatform)
              (u "git init") None None exampleState
              (Throw (HostError (u "spawn failed"))) eq_refl eq_refl)
    as (st' & Hrun & _ & Hh & Hc & Hs).
  exists st'. split; [exact Hrun|].
  split; [unfold execDirs; rewrite Hh; reflexivity|].
  split; [exact Hc|exact Hs].
Defined.

(** ** Destroyed sessions *)

Section Destroyed.

Context `{Platform}.

Lemma destroy_sets_flag (st : State) :
  fst (destroy st) = Ok tt /\ destroyed (repo (snd (destroy st))) = true.
Proof.
  unfold destroy, bind, getState.
  destruct (destroyed (repo st)) eqn:Hd; simpl; auto.
Qed.

Lemma destroy_live (st : State) :
  destroyed (repo st) = false ->
  history (proc (snd (destroy st))) = history (proc st) ++ [Rm (directory (repo st))].
Proof.
  intros Hd. unfold destroy, bind, getState. rewrite Hd. reflexivity.
Qed.

Lemma destroy_again (st : State) :
  destroyed (repo st) = true -> destroy st = (Ok tt, st).
Proof.
  intros Hd. unfold destroy, bind, getState. rewrite Hd. reflexivity.
Qed.

Ltac guarded Hd :=
  unfold bind; rewrite (execInRepo_destroyed _ _ _ _ Hd); reflexivity.

Lemma push_destroyed (remote : jsstring) (localBranch remoteBranch : Arg)
    (opts : option ICommnandOptions) (st : State) :
  destroyed (repo st) = true ->
  push remote localBranch remoteBranch opts st = (Throw RepositoryDestroyed, st).
Proof.
  intros Hd.
  destruct localBranch; [| destruct remoteBranch |]; cbn [push];
    unfold currentBranch; guarded Hd.
Qed.

Lemma fetch_destroyed (remote : jsstring) (branch : Arg) (opts : option ICommnandOptions)
    (st : State) :
  destroyed (repo st) = true ->
  fetch remote branch opts st = (Throw RepositoryDestroyed, st).
Proof. intros Hd. destruct branch; cbn [fetch]; guarded Hd. Qed.

Lemma invoke_destroyed (c : Call) (st : State) :
  destroyed (repo st) = true ->
  invoke c st = (if isDestroy c then Ok Void else Throw RepositoryDestroyed, st).
Proof.
  intros Hd.
  destruct c; cbn [invoke isDestroy]; unfold void.
  - unfold currentBranch. guarded Hd.
  - unfold addRemote. guarded Hd.
  - unfold checkout. guarded Hd.
  - unfold commit. guarded Hd.
  - unfold config. guarded Hd.
  - unfold deleteRemoteBranch, bind. now rewrite (push_destroyed _ _ _ _ _ Hd).
  - unfold bind. now rewrite (destroy_again _ Hd).
  - unfold bind. now rewrite (fetch_destroyed _ _ _ _ Hd).
  - unfold getRemoteBranches, bind. now rewrite (fetch_destroyed _ _ _ _ Hd).
  - unfold init. guarded Hd.
  - unfold bind. now rewrite (push_destroyed _ _ _ _ _ Hd).
  - unfold setUserInfo, config. guarded Hd.
  - unfold stage. guarded Hd.
Qed.

Lemma invokeAll_destroyed (cs : list Call) (st : State) :
  destroyed (repo st) = true ->
  invokeAll cs st
  = (map (fun c => if isDestroy c then Ok Void else Throw RepositoryDestroyed) cs, st).
Proof.
  intros Hd. induction cs as [|c cs IH]; [reflexivity|].
  cbn [invokeAll map]. now rewrite (invoke_destroyed _ _ Hd), IH.
Qed.

(** C3. Destroyed-session guard.  [destroy] returns normally and leaves
    the flag set, from any state.  On a session whose flag is set, every
    operation other than [destroy] throws the session-destroyed error and
    leaves the state as it was: nothing is run, logged or removed, and the
    working directory is not touched; [destroy] itself returns normally
    and changes nothing.  This stays so over any sequence of calls, so
    the flag never goes back to [false]; in particular it holds in the
    state any [destroy] leaves behind. *)
Theorem destroyed_session_guard (st : State) :
  destroyed (repo st) = true ->
  (forall c,
     invoke c st = (if isDestroy c then Ok Void else Throw RepositoryDestroyed, st)) /\
  destroy st = (Ok tt, st) /\
  (forall cs,
     invokeAll cs st
     = (map (fun c => if isDestroy c then Ok Void else Throw RepositoryDestroyed) cs, st)) /\
  (forall cs, destroyed (repo (snd (invokeAll cs st))) = true) /\
  (forall st0, fst (destroy st0) = Ok tt /\ destroyed (repo (snd (destroy st0))) = true) /\
  (forall st0 cs,
     invokeAll cs (snd (destroy st0))
     = (map (fun c => if isDestroy c then Ok Void else Throw RepositoryDestroyed) cs,
        snd (destroy st0))).
Proof.
  intros Hd.
  split; [intros c; now apply invoke_destroyed|].
  split; [now apply destroy_again|].
  split; [intros cs; now apply invokeAll_destroyed|].
  split; [intros cs; now rewrite invokeAll_destroyed|].
  split; [exact destroy_sets_flag|].
  intros st0 cs. apply invokeAll_destroyed. apply destroy_sets_flag.
Qed.

End Destroyed.

Lemma destroyed_session_guard_witness :
  let st := snd (destroy exampleState) in
  history (proc st) = [Rm (u "/tmp/work/repo")] /\
  invokeAll (H := examplePlatform)
    [CallCheckout (u "main") None; CallDestroy; CallPush (u "origin") ArgUndefined ArgUndefined None;
     CallCommit (u "msg") None; CallStage [u "a"] None]
    st
  = ([Throw RepositoryDestroyed; Ok Void; Throw RepositoryDestroyed;
      Throw RepositoryDestroyed; Throw RepositoryDestroyed], st).
Proof.
  intros st. split; [reflexivity|].
  exact (proj1 (proj2 (proj2 (@destroyed_session_guard examplePlatform st eq_refl)))
           [CallCheckout (u "main") None; CallDestroy;
            CallPush (u "origin") ArgUndefined ArgUndefined None;
            CallCommit (u "msg") None; CallStage [u "a"] None]).
Defined.

(** ** Overloads: [push], [fetch], [deleteRemoteBranch] *)

Section Overloads.

Context `{Platform}.

Lemma currentBranch_run (cb : jsstring) (st : State) :
  destroyed (repo st) = false -> headIs cb ->
  exists out,
    currentBranch st
    = (Ok cb, after st (u "git rev-parse --abbrev-ref HEAD") None None (Ok out)).
Proof.
  intros Hd Hcb. unfold currentBranch, bind.
  rewrite (execInRepo_run _ _ _ _ Hd).
  change (composed (u "git rev-parse --abbrev-ref HEAD") None)
    with (u "git rev-parse --abbrev-ref HEAD") at 1 2.
  destruct (Hcb (handedEnv (proc st) None)
              (inside st (u "git rev-parse --abbrev-ref HEAD") None None))
    as (out & E & Hout).
  rewrite E. exists out. unfold ret. now rewrite Hout.
Qed.

(** A command built from the current branch, run right after asking
    for it. *)
Lemma with_currentBranch (mk : jsstring -> jsstring) (cb : jsstring)
    (o : option ICommnandOptions) (st : State) :
  destroyed (repo st) = false -> headIs cb ->
  commands (proc (snd (bind currentBranch (fun b =>
     bind (execInRepo (mk b) o None) (fun _ => ret tt)) st)))
  = commands (proc st) ++ [u "git rev-parse --abbrev-ref HEAD"; composed (mk cb) o].
Proof.
  intros Hd Hcb.
  destruct (currentBranch_run cb st Hd Hcb) as (out & E).
  unfold bind at 1. rewrite E.
  rewrite exec_then_ret by exact Hd. cbn [snd].
  rewrite !commands_after, <- app_assoc. reflexivity.
Qed.

(** C1, as the code has it.  With the current branch [cb]:
    [push(remote)] (with or without options) first asks for the current
    branch and then runs `git push remote cb:cb`; [push(remote, b)] does
    the same and runs `git push remote cb:b`, the one branch given being
    the remote branch; [push(remote, l, r)] runs `git push remote l:r`
    without asking.  In each case the command is the trimmed text
    `git push remote localBranch:remoteBranch` followed by the rendered
    options. *)
Theorem push_overloads (remote cb : jsstring) (st : State) :
  destroyed (repo st) = false ->
  headIs cb ->
  (forall o x opts,
     commands (proc (snd (push remote (nonString o) x opts st)))
     = commands (proc st) ++
       [u "git rev-parse --abbrev-ref HEAD"; composed (pushCmd remote cb cb) o]) /\
  (forall b o opts,
     commands (proc (snd (push remote (ArgString b) (nonString o) opts st)))
     = commands (proc st) ++
       [u "git rev-parse --abbrev-ref HEAD"; composed (pushCmd remote cb b) o]) /\
  (forall l r opts,
     commands (proc (snd (push remote (ArgString l) (ArgString r) opts st)))
     = commands (proc st) ++ [composed (pushCmd remote l r) opts]).
Proof.
  intros Hd Hcb. split; [|split].
  - intros o x opts.
    destruct o as [o|]; cbn [push nonString asOptions];
      now apply (with_currentBranch (fun b => pushCmd remote b b)).
  - intros b o opts.
    destruct o as [o|]; cbn [push nonString asOptions];
      now apply (with_currentBranch (fun c => pushCmd remote c b)).
  - intros l r opts. cbn [push].
    rewrite exec_then_ret by exact Hd. cbn [snd]. apply commands_after.
Qed.

(** C6. Fetch overload.  A second argument that is not a string is
    taken as the options and the branch is the empty string: the call
    is the same as [fetch(remote, '', options)], whatever the third
    argument, and runs the trimmed `git fetch remote ` with those options
    rendered; for [fetch("origin", {depth: "1"})] that is
    `git fetch origin --depth 1`. *)
Theorem fetch_overload (remote : jsstring) (o : option ICommnandOptions)
    (opts : option ICommnandOptions) (st : State) :
  fetch remote (nonString o) opts = fetch remote (ArgString []) o /\
  (destroyed (repo st) = false ->
   commands (proc (snd (fetch remote (nonString o) opts st)))
   = commands (proc st) ++ [composed (fetchCmd remote []) o]) /\
  composed (fetchCmd (u "origin") []) (Some [(u "depth", VStr (u "1"))])
  = u "git fetch origin --depth 1".
Proof.
  split; [destruct o; reflexivity|].
  split; [|reflexivity].
  intros Hd. destruct o as [o|]; cbn [fetch nonString asOptions];
    rewrite exec_then_ret by exact Hd; cbn [snd]; apply commands_after.
Qed.

(** C9. [deleteRemoteBranch] ignores its options: with any [opts] it
    is the call [push(remote, '', branch)] without options, the same as
    with no [opts] at all, and on a live session it runs exactly the
    trimmed `git push remote :branch`, no flag added and the current
    branch not asked for. *)
Theorem deleteRemoteBranch_ignores_opts (remote branch : jsstring)
    (opts : option ICommnandOptions) (st : State) :
  deleteRemoteBranch remote branch opts = deleteRemoteBranch remote branch None /\
  deleteRemoteBranch remote branch opts = push remote (ArgString []) (ArgString branch) None /\
  (destroyed (repo st) = false ->
   commands (proc (snd (deleteRemoteBranch remote branch opts st)))
   = commands (proc st) ++ [trim (u "git push " ++ remote ++ u " :" ++ branch)]).
Proof.
  split; [reflexivity|]. split; [reflexivity|].
  intros Hd. unfold deleteRemoteBranch. cbn [push].
  rewrite exec_then_ret by exact Hd. cbn [snd]. apply commands_after.
Qed.

End Overloads.

Lemma push_overloads_witness :
  commands (proc (snd (push (H := examplePlatform) (u "origin") ArgUndefined ArgUndefined None
                         exampleState)))
  = [u "git rev-parse --abbrev-ref HEAD"; u "git push origin main:main"] /\
  commands (proc (snd (push (H := examplePlatform) (u "origin") (ArgString (u "feat"))
                         ArgUndefined None exampleState)))
  = [u "git rev-parse --abbrev-ref HEAD"; u "git push origin main:feat"] /\
  commands (proc (snd (push (H := examplePlatform) (u "origin") (ArgString (u "local"))
                         (ArgString (u "remote")) None exampleState)))
  = [u "git push origin local:remote"].
Proof.
  assert (Hcb : headIs (H := examplePlatform) (u "main")).
  { intros env p. eexists. split; reflexivity. }
  destruct (@push_overloads examplePlatform (u "origin") (u "main") exampleState eq_refl Hcb)
    as (H1 & H2 & H3).
  split; [exact (H1 None ArgUndefined None)|].
  split; [exact (H2 (u "feat") None None)|].
  exact (H3 (u "local") (u "remote") None).
Defined.

(** With the current branch [main], [push("origin", "feat")] runs
    `git push origin main:feat`, and `git push origin feat:feat` is not
    among the commands it runs. *)
Lemma push_one_branch_counterexample :
  fst (currentBranch (H := examplePlatform) exampleState) = Ok (u "main") /\
  commands (proc (snd (push (H := examplePlatform) (u "origin") (ArgString (u "feat"))
                         ArgUndefined None exampleState)))
  = [u "git rev-parse --abbrev-ref HEAD"; u "git push origin main:feat"] /\
  ~ In (u "git push origin feat:feat")
       (commands (proc (snd (push (H := examplePlatform) (u "origin") (ArgString (u "feat"))
                               ArgUndefined None exampleState)))).
Proof.
  split; [reflexivity|]. split; [reflexivity|].
  vm_compute. intros [E|[E|[]]]; discriminate E.
Qed.

Lemma fetch_overload_witness :
  commands (proc (snd (fetch (H := examplePlatform) (u "origin")
                         (ArgOptions [(u "depth", VStr (u "1"))]) None exampleState)))
  = [u "git fetch origin --depth 1"].
Proof.
  exact (proj1 (proj2 (@fetch_overload examplePlatform (u "origin")
                         (Some [(u "depth", VStr (u "1"))]) None exampleState)) eq_refl).
Defined.

Lemma deleteRemoteBranch_ignores_opts_witness :
  commands (proc (snd (deleteRemoteBranch (H := examplePlatform) (u "origin") (u "old")
                         (Some [(u "force", VBool true)]) exampleState)))
  = [u "git push origin :old"].
Proof.
  exact (proj2 (proj2 (@deleteRemoteBranch_ignores_opts examplePlatform (u "origin") (u "old")
                         (Some [(u "force", VBool true)]) exampleState)) eq_refl).
Defined.

(** ** Remote branches *)

Section RemoteBranches.

Context `{Platform}.

Lemma strip_kept (prefix : jsstring) (lines : list jsstring) :
  map (replaceAtStart prefix) (filter (fun line => startsWith line prefix) lines)
  = map (skipn (length prefix)) (filter (fun line => startsWith line prefix) lines).
Proof.
  induction lines as [|l lines IH]; [reflexivity|].
  cbn [filter]. destruct (startsWith l prefix) eqn:E; [|exact IH].
  cbn [map]. rewrite IH. unfold replaceAtStart. now rewrite E.
Qed.

Lemma kept_lines (prefix : jsstring) (lines : list jsstring) (b : jsstring) :
  In b (map (skipn (length prefix)) (filter (fun line => startsWith line prefix) lines)) ->
  In (prefix ++ b) lines.
Proof.
  intros Hin. apply in_map_iff in Hin as (l & <- & Hl).
  apply filter_In in Hl as [Hl E].
  now rewrite <- (startsWith_inv _ _ E).
Qed.

(** C7. [getRemoteBranches].  When the shallow fetch returns and
    `git branch --remote` prints [listing], the result is made from the
    lines of [listing] in their order: each line trimmed, the lines that
    do not start with `remote/` dropped, and that prefix cut off the
    others.  For the lines `  origin/main`, `  origin/dev`,
    `  upstream/main` and the remote [origin] the result is [main], [dev].
    The remote is assumed free of regular-expression syntax characters,
    since the code builds a pattern from it. *)
Theorem getRemoteBranches_result (remote listing : jsstring) (st : State) :
  literalSource (remote ++ u "/") = true ->
  destroyed (repo st) = false ->
  answers (composed (fetchCmd remote [])
             (Some [(u "depth", VStr (u "1")); (u "no-tags", VBool true)]))
          (fun _ => True) ->
  answers (u "git branch --remote") (fun out => stdout out = listing) ->
  fst (getRemoteBranches remote st)
  = Ok (map (skipn (length (remote ++ u "/")))
          (filter (fun line => startsWith line (remote ++ u "/"))
             (map trim (splitLF listing)))) /\
  (forall b, In b (parseRemoteBranches remote listing) ->
     In (remote ++ u "/" ++ b) (map trim (splitLF listing))) /\
  commands (proc (snd (getRemoteBranches remote st)))
  = commands (proc st) ++
    [composed (fetchCmd remote []) (Some [(u "depth", VStr (u "1")); (u "no-tags", VBool true)]);
     u "git branch --remote"] /\
  parseRemoteBranches (u "origin") exampleListing = [u "main"; u "dev"].
Proof.
  intros _ Hd Hfetch Hlist.
  remember (getRemoteBranches remote st) as res eqn:Eres.
  unfold getRemoteBranches in Eres. cbn [fetch asOptions] in Eres.
  unfold bind at 1 in Eres. rewrite exec_then_ret in Eres by exact Hd.
  match type of Eres with
  | context [sh_exec ?c ?e ?p] =>
      destruct (Hfetch e p) as (out1 & E1 & _);
      assert (E1' : sh_exec c e p = Ok out1) by exact E1; rewrite E1' in Eres
  end.
  unfold bind at 1 in Eres. rewrite execInRepo_run in Eres by exact Hd.
  change (composed (u "git branch") (Some [(u "remote", VBool true)]))
    with (u "git branch --remote") in Eres at 1 2.
  match type of Eres with
  | context [sh_exec (u "git branch --remote") ?e ?p] =>
      destruct (Hlist e p) as (out2 & E2 & Hout); rewrite E2 in Eres
  end.
  unfold ret in Eres. rewrite Hout in Eres. subst res. cbn [fst snd].
  split.
  { unfold parseRemoteBranches. now rewrite strip_kept. }
  split.
  { intros b Hb. unfold parseRemoteBranches in Hb. rewrite strip_kept in Hb.
    apply kept_lines in Hb. now rewrite <- app_assoc in Hb. }
  split; [|reflexivity].
  rewrite !commands_after, <- app_assoc. reflexivity.
Qed.

End RemoteBranches.

Lemma getRemoteBranches_result_witness :
  fst (getRemoteBranches (H := examplePlatform) (u "origin") exampleState)
  = Ok [u "main"; u "dev"].
Proof.
  assert (Hfetch : answers (H := examplePlatform)
            (composed (fetchCmd (u "origin") [])
               (Some [(u "depth", VStr (u "1")); (u "no-tags", VBool true)]))
            (fun _ => True)).
  { intros env p. eexists. split; [reflexivity|exact I]. }
  assert (Hlist : answers (H := examplePlatform) (u "git branch --remote")
            (fun out => stdout out = exampleListing)).
  { intros env p. eexists. split; reflexivity. }
  exact (proj1 (@getRemoteBranches_result examplePlatform (u "origin") exampleListing
                  exampleState eq_refl eq_refl Hfetch Hlist)).
Defined.

(** ** Commit messages *)

Section Commit.

Context `{Platform}.

Lemma trimEnd_last (a : jsstring) (d : N) :
  isWhiteSpace d = false -> trimEnd (a ++ [d]) = a ++ [d].
Proof.
  intros Hd. unfold trimEnd. rewrite rev_app_distr. cbn [rev app].
  rewrite (trimStart_head d _ Hd). cbn [rev]. now rewrite rev_involutive.
Qed.

Lemma splitNewlines_one_line (s : jsstring) :
  existsb (N.eqb LF) s = false -> splitNewlines s = [s].
Proof.
  induction s as [|c r IH]; [reflexivity|].
  intros Hs. cbn [existsb] in Hs. apply orb_false_iff in Hs as [Hc Hr].
  specialize (IH Hr). cbn [splitNewlines].
  rewrite N.eqb_sym in Hc. rewrite Hc.
  destruct r as [|d r']; [reflexivity|].
  cbn [existsb] in Hr. apply orb_false_iff in Hr as [Hd _].
  rewrite N.eqb_sym in Hd. rewrite Hd, andb_false_r. now rewrite IH.
Qed.

Lemma tempMsgArg_trim (msg : jsstring) : tempMsgArg (trim msg) = tempMsgArg msg.
Proof. unfold tempMsgArg. now rewrite trim_idem. Qed.

Lemma tempMsgArg_surrounded (ws msg ws' : jsstring) :
  forallb isWhiteSpace ws = true -> forallb isWhiteSpace ws' = true ->
  tempMsgArg (ws ++ msg ++ ws') = tempMsgArg msg.
Proof. intros E E'. unfold tempMsgArg. now rewrite trim_surrounded. Qed.

(** The first command of [commit] without further options, for a message
    argument that ends in a non-blank code unit. *)
Lemma commit_command (body : jsstring) :
  composed (u "git commit")
    (Some (Obj.set (u "message") (VStr (quoted body)) (Obj.spread None)))
  = u "git commit --message " ++ quoted body.
Proof.
  change (composed (u "git commit")
            (Some (Obj.set (u "message") (VStr (quoted body)) (Obj.spread None))))
    with (u "git commit" ++ [SP] ++ trim (45 :: (u "-message " ++ [DQUOTE] ++ body) ++ [DQUOTE])).
  rewrite trim_fixed; [|reflexivity|apply trimEnd_last; reflexivity].
  unfold quoted. cbn [u app]. rewrite <- ?app_assoc. reflexivity.
Qed.

Lemma filterBranchCmd_composed : composed filterBranchCmd None = filterBranchCmd.
Proof.
  unfold composed. rewrite withOptions_none.
  assert (E : filterBranchCmd
              = 103 :: (u "it filter-branch --msg-filter " ++ [DQUOTE] ++ u "node " ++
                        FIX_COMMIT_MESSAGE_NEWLINES_SCRIPT_PATH ++ [DQUOTE] ++ u " @~1..") ++ [64]).
  { unfold filterBranchCmd. cbn [u app]. rewrite <- ?app_assoc. reflexivity. }
  rewrite E. apply trim_fixed; [reflexivity|apply trimEnd_last; reflexivity].
Qed.

(** C10. [commit] trims the message first.  The message argument is
    the trimmed message, its newlines replaced by the placeholder, between
    two double quotes; the untrimmed and the trimmed message give the same
    [commit], so blanks and newlines around the message cannot reach the
    stored commit message; a message without a line feed is put between
    the quotes as it is, a double quote inside it included; and on a live
    session the first command is `git commit` with that argument as its
    [message] option. *)
Theorem commit_trims_message (msg : jsstring) (opts : option ICommnandOptions) :
  tempMsgArg msg = quoted (join NEWLINE_PLACEHOLDER (splitNewlines (trim msg))) /\
  commit msg opts = commit (trim msg) opts /\
  (forall ws ws',
     forallb isWhiteSpace ws = true -> forallb isWhiteSpace ws' = true ->
     commit (ws ++ msg ++ ws') opts = commit msg opts) /\
  (existsb (N.eqb LF) (trim msg) = false -> tempMsgArg msg = quoted (trim msg)) /\
  tempMsgArg ([LF] ++ u "  say " ++ [DQUOTE] ++ u "hi" ++ [DQUOTE] ++ u "  " ++ [LF])
  = quoted (u "say " ++ [DQUOTE] ++ u "hi" ++ [DQUOTE]) /\
  (forall st,
     destroyed (repo st) = false ->
     exists later,
       commands (proc (snd (commit msg opts st)))
       = commands (proc st) ++
         CommandBuilder.withOptions (u "git commit")
           (Some (Obj.set (u "message") (VStr (tempMsgArg msg)) (Obj.spread opts)))
         :: later).
Proof.
  split; [reflexivity|].
  split; [unfold commit; now rewrite tempMsgArg_trim|].
  split.
  { intros ws ws' E E'. unfold commit. now rewrite tempMsgArg_surrounded. }
  split.
  { intros Hlf. unfold tempMsgArg. now rewrite splitNewlines_one_line. }
  split; [reflexivity|].
  intros st Hd. unfold commit. unfold bind at 1.
  rewrite execInRepo_run by exact Hd.
  match goal with |- context [sh_exec ?c ?e ?p] => destruct (sh_exec c e p) as [out|e0] end.
  - exists [composed filterBranchCmd None].
    rewrite exec_then_ret by exact Hd. cbn [snd].
    rewrite !commands_after, <- app_assoc. reflexivity.
  - exists []. cbn [snd]. now rewrite commands_after.
Qed.

End Commit.

Lemma commit_trims_message_witness :
  commit (H := examplePlatform) ([LF] ++ u "  fix: typo " ++ [LF]) None
  = commit (H := examplePlatform) (u "fix: typo") None /\
  tempMsgArg (H := examplePlatform) (u " a" ++ [DQUOTE] ++ u "b ")
  = quoted (u "a" ++ [DQUOTE] ++ u "b") /\
  exists later,
    commands (proc (snd (commit (H := examplePlatform) (u " a b ") None exampleState)))
    = (u "git commit --message " ++ quoted (u "a b")) :: later.
Proof.
  split.
  { exact (proj1 (proj2 (proj2 (@commit_trims_message examplePlatform (u "fix: typo") None)))
             [LF; SP; SP] [SP; LF] eq_refl eq_refl). }
  split.
  { exact (proj1 (proj2 (proj2 (proj2
             (@commit_trims_message examplePlatform (u " a" ++ [DQUOTE] ++ u "b ") None))))
             eq_refl). }
  exact (proj2 (proj2 (proj2 (proj2 (proj2
           (@commit_trims_message examplePlatform (u " a b ") None)))))
           exampleState eq_refl).
Defined.

(** ** The model at work *)

Example withOptions_ex :
  CommandBuilder.withOptions (u "git x")
    (Some [(u "name", VList [u "a"; u "b"]); (u "q", VBool false);
           (u "--", VList [u "f"; u "g"]); (u "x", VBool true)])
  = u "git x --name a --name b -x -- f g".
Proof. reflexivity. Qed.

Example withOptions_blank_values_ex :
  CommandBuilder.withOptions (u "git x")
    (Some [(u "a", VList []); (u "m", VStr (u " padded ")); (u "e", VStr []);
           (u "--", VStr [])])
  = u "git x  -m  padded -e".
Proof. reflexivity. Qed.

Example stringify_ex : JSON.stringify (Some [97; 34; 10; 1; 55357; 56832; 56832])
  = [34; 97; 92; 34; 92; 110] ++ u "\u0001" ++ [55357; 56832] ++ u "\ude00" ++ [34].
Proof. reflexivity. Qed.

Example splitNewlines_ex :
  splitNewlines [97; CR; LF; 98; LF; LF; 99; CR; CR; LF] = [[97]; [98]; []; [99; CR]; []].
Proof. reflexivity. Qed.

Example trim_ex : trim ([160; 9] ++ u " origin/main " ++ [LF; 65279]) = u "origin/main".
Proof. reflexivity. Qed.

Example fetch_history_ex :
  history (proc (snd (fetch (H := examplePlatform) (u "origin") (ArgString (u "main"))
                        (Some [(u "depth", VStr (u "1"))]) exampleState)))
  = [Pushd (u "/tmp/work/repo");
     Debug (u "GIT: git fetch origin main --depth 1");
     Exec (u "/tmp/work/repo") (u "git fetch origin main --depth 1") None;
     Popd].
Proof. reflexivity. Qed.

Example commit_env_ex :
  history (proc (snd (commit (H := examplePlatform) (u "one") None exampleState)))
  = [Pushd (u "/tmp/work/repo");
     Debug (u "GIT: git commit --message " ++ quoted (u "one"));
     Exec (u "/tmp/work/repo") (u "git commit --message " ++ quoted (u "one")) None;
     Popd;
     Pushd (u "/tmp/work/repo");
     Debug (u "GIT: " ++ filterBranchCmd (H := examplePlatform) ++
            u " (FILTER_BRANCH_SQUELCH_WARNING=" ++ quoted (u "1") ++ u ")");
     Exec (u "/tmp/work/repo") (filterBranchCmd (H := examplePlatform))
          (Some [(u "PATH", Some (u "/usr/bin"));
                 (u "FILTER_BRANCH_SQUELCH_WARNING", Some (u "1"))]);
     Popd].
Proof. reflexivity. Qed.

Example failing_exec_ex :
  commit (H := failingPlatform) (u "one") None exampleState
  = (Throw (HostError (u "spawn failed")),
     mkState exampleRepo
       (mkProcess (u "/home/user") [] [(u "PATH", Some (u "/usr/bin"))]
          [Pushd (u "/tmp/work/repo");
           Debug (u "GIT: git commit --message " ++ quoted (u "one"));
           Exec (u "/tmp/work/repo") (u "git commit --message " ++ quoted (u "one")) None;
           Popd])).
Proof. reflexivity. Qed.

Example setUserInfo_ex :
  commands (proc (snd (setUserInfo (H := examplePlatform) (u "Jo") (u "jo@x.io") (Some (u "t0k"))
                         exampleState)))
  = [u "git config user.name " ++ quoted (u "Jo");
     u "git config user.email " ++ quoted (u "jo@x.io");
     u "git config credential.helper " ++
     quoted (u "store --file=/tmp/work/repo/.git/.git-credentials--1700000000000")].
Proof. reflexivity. Qed.

Example destroy_ex :
  invokeAll (H := examplePlatform) [CallDestroy; CallDestroy; CallInit None] exampleState
  = ([Ok Void; Ok Void; Throw RepositoryDestroyed],
     mkState (mkGitRepo (u "/tmp/work/repo") (u "repo")
                (u "/tmp/work/repo/.git/.git-credentials--1700000000000") true)
       (mkProcess (u "/home/user") [] [(u "PATH", Some (u "/usr/bin"))]
          [Rm (u "/tmp/work/repo")])).
Proof. reflexivity. Qed.

(** * Further properties *)

(** ** What one block of [execInRepo] adds to the record *)

Section Blocks.

Context `{Platform}.

Lemma outputLog_no_exec (r : Res ExecOutput) :
  flat_map (fun e => match e with Exec d _ _ => [d] | _ => [] end) (outputLog r) = [].
Proof.
  destruct r as [out|e0]; [|reflexivity].
  simpl. induction (filter _ _) as [|a l IH]; simpl; auto.
Qed.

Lemma outputLog_no_execution (r : Res ExecOutput) :
  flat_map (fun e => match e with Exec _ cmd env => [(cmd, env)] | _ => [] end) (outputLog r)
  = [].
Proof.
  destruct r as [out|e0]; [|reflexivity].
  simpl. induction (filter _ _) as [|a l IH]; simpl; auto.
Qed.

Lemma outputLog_no_file (r : Res ExecOutput) : filter isFileEvent (outputLog r) = [].
Proof.
  destruct r as [out|e0]; [|reflexivity].
  unfold outputLog.
  generalize (filter (fun line => truthy (trim line)) (splitLF (stdout out))).
  intros l. induction l as [|a l IH]; simpl; auto.
Qed.

Lemma execDirs_after (st : State) (partialCmd : jsstring) (cmdOpts : option ICommnandOptions)
    (envVars : option Env) (r : Res ExecOutput) :
  execDirs (proc (after st partialCmd cmdOpts envVars r))
  = execDirs (proc st) ++ [path_resolve (cwd (proc st)) (directory (repo st))].
Proof.
  unfold after, execDirs. cbn [proc history].
  rewrite !flat_map_app, outputLog_no_exec. reflexivity.
Qed.

Lemma executions_after (st : State) (partialCmd : jsstring) (cmdOpts : option ICommnandOptions)
    (envVars : option Env) (r : Res ExecOutput) :
  executions (proc (after st partialCmd cmdOpts envVars r))
  = executions (proc st) ++ [(composed partialCmd cmdOpts, handedEnv (proc st) envVars)].
Proof.
  unfold after, executions. cbn [proc history].
  rewrite !flat_map_app, outputLog_no_execution. reflexivity.
Qed.

Lemma fileEvents_after (st : State) (partialCmd : jsstring) (cmdOpts : option ICommnandOptions)
    (envVars : option Env) (r : Res ExecOutput) :
  fileEvents (proc (after st partialCmd cmdOpts envVars r)) = fileEvents (proc st).
Proof.
  unfold after, fileEvents. cbn [proc history].
  rewrite !filter_app, outputLog_no_file. cbn [filter isFileEvent app].
  now rewrite app_nil_r.
Qed.

Lemma invokeAll_step (c : Call) (cs : list Call) (st : State) :
  snd (invokeAll (c :: cs) st) = snd (invokeAll cs (snd (invoke c st))).
Proof.
  cbn [invokeAll]. destruct (invoke c st) as [r st1]. cbn [snd].
  now destruct (invokeAll cs st1).
Qed.

End Blocks.

(** ** Relations every operation keeps *)

Section Keeping.

Context `{Platform}.

Variable R : State -> State -> Prop.

Hypothesis R_refl : forall st, R st st.
Hypothesis R_trans : forall a b c, R a b -> R b c -> R a c.
Hypothesis R_exec : forall partialCmd cmdOpts envVars,
  keeps R (execInRepo partialCmd cmdOpts envVars).

Lemma keeps_ret {A} (a : A) : keeps R (ret a).
Proof. intros st. apply R_refl. Qed.

Lemma keeps_bind {A B} (m : M A) (k : A -> M B) :
  keeps R m -> (forall a, keeps R (k a)) -> keeps R (bind m k).
Proof.
  intros Hm Hk st. unfold bind. specialize (Hm st).
  destruct (m st) as [[a|e] st1]; cbn [snd] in *; [|exact Hm].
  apply R_trans with st1; [exact Hm|apply Hk].
Qed.

Lemma keeps_exec_ret (partialCmd : jsstring) (cmdOpts : option ICommnandOptions)
    (envVars : option Env) :
  keeps R (bind (execInRepo partialCmd cmdOpts envVars) (fun _ => ret tt)).
Proof. apply keeps_bind; [apply R_exec|intros; apply keeps_ret]. Qed.

Lemma keeps_currentBranch : keeps R currentBranch.
Proof. apply keeps_bind; [apply R_exec|intros; apply keeps_ret]. Qed.

Lemma keeps_fetch (remote : jsstring) (branch : Arg) (opts : option ICommnandOptions) :
  keeps R (fetch remote branch opts).
Proof. destruct branch; apply keeps_exec_ret. Qed.

Lemma keeps_push (remote : jsstring) (localBranch remoteBranch : Arg)
    (opts : option ICommnandOptions) : keeps R (push remote localBranch remoteBranch opts).
Proof.
  destruct localBranch; [| destruct remoteBranch |]; cbn [push];
    try apply keeps_exec_ret;
    (apply keeps_bind; [apply keeps_currentBranch|intros; apply keeps_exec_ret]).
Qed.

Lemma keeps_plain_call (c : Call) : touchesFiles c = false -> keeps R (invoke c).
Proof.
  destruct c; cbn [touchesFiles]; try discriminate; intros _; cbn [invoke]; unfold void;
    (apply keeps_bind; [|intros; apply keeps_ret]).
  - apply keeps_currentBranch.
  - unfold addRemote. apply keeps_bind; [apply R_exec|intros _; apply keeps_exec_ret].
  - apply keeps_exec_ret.
  - unfold commit. apply keeps_bind; [apply R_exec|intros _; apply keeps_exec_ret].
  - apply keeps_exec_ret.
  - apply keeps_push.
  - apply keeps_fetch.
  - unfold getRemoteBranches.
    apply keeps_bind; [apply keeps_fetch|intros _].
    apply keeps_bind; [apply R_exec|intros; apply keeps_ret].
  - apply keeps_exec_ret.
  - apply keeps_push.
  - apply keeps_exec_ret.
Qed.

Lemma keeps_setUserInfo (name email : jsstring) (ghToken : option jsstring) :
  (forall e, isWriteEvent e = true -> keeps R (updProc (record e))) ->
  keeps R (setUserInfo name email ghToken).
Proof.
  intros Hfile. unfold setUserInfo.
  apply keeps_bind; [apply keeps_exec_ret|intros _].
  apply keeps_bind; [apply keeps_exec_ret|intros _].
  destruct ghToken as [[|c t]|]; try apply keeps_ret.
  apply keeps_bind; [intros st; apply R_refl|intros st0].
  apply keeps_bind; [now apply Hfile|intros _].
  apply keeps_bind; [now apply Hfile|intros _].
  apply keeps_exec_ret.
Qed.

Lemma keeps_every_call :
  (forall e, isWriteEvent e = true -> keeps R (updProc (record e))) ->
  keeps R destroy ->
  forall c, keeps R (invoke c).
Proof.
  intros Hfile Hdestroy c.
  destruct (touchesFiles c) eqn:E; [|now apply keeps_plain_call].
  destruct c; try discriminate E; cbn [invoke]; unfold void;
    (apply keeps_bind; [|intros; apply keeps_ret]).
  - exact Hdestroy.
  - now apply keeps_setUserInfo.
Qed.

Lemma keeps_sequence (ok : Call -> bool) :
  (forall c, ok c = true -> keeps R (invoke c)) ->
  forall cs st, forallb ok cs = true -> R st (snd (invokeAll cs st)).
Proof.
  intros Hc cs. induction cs as [|c cs IH]; intros st Hok; [apply R_refl|].
  cbn [forallb] in Hok. apply andb_true_iff in Hok as [Hc1 Hcs].
  rewrite invokeAll_step.
  apply R_trans with (snd (invoke c st)); [now apply Hc|now apply IH].
Qed.

End Keeping.

Section Frame.

Context `{Platform}.

Lemma execInRepo_after_or_same (partialCmd : jsstring) (cmdOpts : option ICommnandOptions)
    (envVars : option Env) (st : State) :
  snd (execInRepo partialCmd cmdOpts envVars st) = st \/
  exists r, snd (execInRepo partialCmd cmdOpts envVars st)
            = after st partialCmd cmdOpts envVars r.
Proof.
  destruct (destroyed (repo st)) eqn:Hd.
  - left. now rewrite (execInRepo_destroyed _ _ _ _ Hd).
  - right. rewrite (execInRepo_run _ _ _ _ Hd). eexists. reflexivity.
Qed.

Lemma sameSession_exec (partialCmd : jsstring) (cmdOpts : option ICommnandOptions)
    (envVars : option Env) : keeps sameSession (execInRepo partialCmd cmdOpts envVars).
Proof.
  intros st. unfold sameSession.
  destruct (execInRepo_after_or_same partialCmd cmdOpts envVars st) as [E|[r E]];
    rewrite E; reflexivity.
Qed.

Lemma sameSession_call (c : Call) : isDestroy c = false -> keeps sameSession (invoke c).
Proof.
  intros Hc.
  destruct (touchesFiles c) eqn:E.
  - destruct c; try discriminate E; try discriminate Hc.
    cbn [invoke]. unfold void.
    apply keeps_bind; try (unfold sameSession; congruence).
    + apply keeps_setUserInfo; try (unfold sameSession; congruence).
      * exact sameSession_exec.
      * intros e _ st. reflexivity.
    + intros a st. reflexivity.
  - apply keeps_plain_call; try (unfold sameSession; congruence).
    exact sameSession_exec.
Qed.

(** X1. Only [destroy] changes the session: after any sequence of other
    calls, whatever the tool prints, returns or raises, the session is the
    same record, so a live session is still live. *)
Theorem only_destroy_changes_session (cs : list Call) (st : State) :
  forallb (fun c => negb (isDestroy c)) cs = true ->
  repo (snd (invokeAll cs st)) = repo st.
Proof.
  intros Hcs.
  apply (keeps_sequence sameSession) with (ok := fun c => negb (isDestroy c)).
  - intros s. reflexivity.
  - unfold sameSession. congruence.
  - intros c Hc. apply sameSession_call. now destruct (isDestroy c).
  - exact Hcs.
Qed.

End Frame.

Section Directory.

Context `{Platform}.

Lemma ranInDirectory_refl (st : State) : ranInDirectory st st.
Proof.
  split; [reflexivity|]. split; [reflexivity|].
  exists 0%nat. cbn [repeat]. now rewrite app_nil_r.
Qed.

Lemma ranInDirectory_trans (a b c : State) :
  ranInDirectory a b -> ranInDirectory b c -> ranInDirectory a c.
Proof.
  intros (A1 & A2 & n & A3) (B1 & B2 & m & B3).
  split; [congruence|]. split; [congruence|].
  exists (n + m)%nat. rewrite B3, A3, A1, A2, <- app_assoc. now rewrite repeat_app.
Qed.

Lemma ranInDirectory_exec (partialCmd : jsstring) (cmdOpts : option ICommnandOptions)
    (envVars : option Env) : keeps ranInDirectory (execInRepo partialCmd cmdOpts envVars).
Proof.
  intros st.
  destruct (execInRepo_after_or_same partialCmd cmdOpts envVars st) as [E|[r E]]; rewrite E.
  - apply ranInDirectory_refl.
  - split; [reflexivity|]. split; [reflexivity|].
    exists 1%nat. apply execDirs_after.
Qed.

Lemma ranInDirectory_file (e : Event) :
  isWriteEvent e = true -> keeps ranInDirectory (updProc (record e)).
Proof.
  intros He st. split; [reflexivity|]. split; [reflexivity|].
  exists 0%nat. cbn [repeat]. rewrite app_nil_r.
  unfold execDirs, updProc, record. cbn [snd proc history].
  rewrite flat_map_app. destruct e; try discriminate He; cbn; now rewrite app_nil_r.
Qed.

Lemma ranInDirectory_destroy : keeps ranInDirectory destroy.
Proof.
  intros st. unfold destroy, bind, getState.
  destruct (destroyed (repo st)); cbn.
  - apply ranInDirectory_refl.
  - split; [reflexivity|]. split; [reflexivity|].
    exists 0%nat. cbn [repeat]. rewrite app_nil_r.
    unfold execDirs. cbn. rewrite flat_map_app. cbn. now rewrite app_nil_r.
Qed.

(** X2. Every command runs in the session's directory: after any
    sequence of calls, the working directories of the commands run in
    between are all the session's directory, resolved against the
    working directory the process had before the first call. *)
Theorem commands_run_in_directory (cs : list Call) (st : State) :
  exists n,
    execDirs (proc (snd (invokeAll cs st)))
    = execDirs (proc st) ++ repeat (path_resolve (cwd (proc st)) (directory (repo st))) n.
Proof.
  assert (Hk : ranInDirectory st (snd (invokeAll cs st))).
  { apply (keeps_sequence ranInDirectory ranInDirectory_refl ranInDirectory_trans
             (fun _ => true)).
    - intros c _.
      apply (keeps_every_call ranInDirectory ranInDirectory_refl ranInDirectory_trans
               ranInDirectory_exec ranInDirectory_file ranInDirectory_destroy).
    - now apply forallb_forall. }
  destruct Hk as (_ & _ & n & Hn). now exists n.
Qed.

Lemma noFileTouched_exec (partialCmd : jsstring) (cmdOpts : option ICommnandOptions)
    (envVars : option Env) : keeps noFileTouched (execInRepo partialCmd cmdOpts envVars).
Proof.
  intros st. unfold noFileTouched.
  destruct (execInRepo_after_or_same partialCmd cmdOpts envVars st) as [E|[r E]]; rewrite E.
  - reflexivity.
  - apply fileEvents_after.
Qed.

(** X3. Only [destroy] and [setUserInfo] touch files themselves: any
    sequence of the other operations makes no call to [sh.rm],
    [ShellString.to] or [sh.chmod], whatever the tool does. *)
Theorem only_two_operations_touch_files (cs : list Call) (st : State) :
  forallb (fun c => negb (touchesFiles c)) cs = true ->
  fileEvents (proc (snd (invokeAll cs st))) = fileEvents (proc st).
Proof.
  intros Hcs.
  apply (keeps_sequence noFileTouched) with (ok := fun c => negb (touchesFiles c)).
  - intros s. reflexivity.
  - unfold noFileTouched. congruence.
  - intros c Hc. apply keeps_plain_call.
    + intros s. reflexivity.
    + unfold noFileTouched. congruence.
    + exact noFileTouched_exec.
    + now destruct (touchesFiles c).
  - exact Hcs.
Qed.

Lemma nothingRemoved_exec (partialCmd : jsstring) (cmdOpts : option ICommnandOptions)
    (envVars : option Env) : keeps nothingRemoved (execInRepo partialCmd cmdOpts envVars).
Proof.
  intros st.
  destruct (execInRepo_after_or_same partialCmd cmdOpts envVars st) as [E|[r E]]; rewrite E.
  - split; reflexivity.
  - split; [reflexivity|].
    unfold removed, after. cbn [proc history]. rewrite !flat_map_app.
    cbn [flat_map app]. rewrite app_nil_r.
    destruct r as [out|e0]; [|cbn; now rewrite app_nil_r].
    unfold outputLog.
    generalize (filter (fun line => truthy (trim line)) (splitLF (stdout out))).
    intros l. induction l as [|a l IH]; cbn in *; [now rewrite app_nil_r|exact IH].
Qed.

Lemma nothingRemoved_call (c : Call) : isDestroy c = false -> keeps nothingRemoved (invoke c).
Proof.
  intros Hc.
  assert (Hrefl : forall s, nothingRemoved s s) by (intros s; split; reflexivity).
  assert (Htrans : forall a b d, nothingRemoved a b -> nothingRemoved b d -> nothingRemoved a d).
  { intros a b d [A1 A2] [B1 B2]. split; congruence. }
  destruct (touchesFiles c) eqn:E.
  - destruct c; try discriminate E; try discriminate Hc.
    cbn [invoke]. unfold void.
    apply (keeps_bind nothingRemoved Htrans); [|intros a s; apply Hrefl].
    apply (keeps_setUserInfo nothingRemoved Hrefl Htrans nothingRemoved_exec).
    intros e He s. split; [reflexivity|].
    unfold removed, updProc, record. cbn [snd proc history]. rewrite flat_map_app.
    destruct e; try discriminate He; cbn; now rewrite app_nil_r.
  - now apply (keeps_plain_call nothingRemoved Hrefl Htrans nothingRemoved_exec).
Qed.

End Directory.

Section Removal.

Context `{Platform}.

Lemma destroy_run_live (st : State) :
  destroyed (repo st) = false ->
  destroy st
  = (Ok tt,
     mkState (mkGitRepo (directory (repo st)) (name (repo st)) (credentialsPath (repo st)) true)
             (record (Rm (directory (repo st))) (proc st))).
Proof.
  intros Hd. unfold destroy, bind, getState. rewrite Hd. reflexivity.
Qed.

(** X4. The directory is removed at most once: over any sequence of
    calls on a session, [sh.rm] is called exactly once, with the
    session's directory, when the session was live and the sequence has a
    [destroy] in it, and not at all otherwise. *)
Theorem directory_removed_once (cs : list Call) (st : State) :
  removed (proc (snd (invokeAll cs st)))
  = removed (proc st) ++
    (if negb (destroyed (repo st)) && existsb isDestroy cs
     then [directory (repo st)] else []).
Proof.
  destruct (destroyed (repo st)) eqn:Hd.
  { rewrite (invokeAll_destroyed cs st Hd). cbn. now rewrite app_nil_r. }
  cbn [negb andb].
  revert st Hd. induction cs as [|c cs IH]; intros st Hd.
  { cbn. now rewrite app_nil_r. }
  rewrite invokeAll_step. cbn [existsb].
  destruct (isDestroy c) eqn:Hc.
  - destruct c; try discriminate Hc. cbn [orb].
    assert (Hd1 : destroyed (repo (snd (invoke CallDestroy st))) = true).
    { cbn [invoke]. unfold void, bind.
      pose proof (destroy_sets_flag st) as [_ Hf].
      destruct (destroy st) as [[a|e] s1]; exact Hf. }
    rewrite (invokeAll_destroyed cs _ Hd1). cbn [snd].
    cbn [invoke]. unfold void. unfold bind at 1. rewrite (destroy_run_live st Hd).
    unfold ret, removed, record. cbn. rewrite flat_map_app. reflexivity.
  - cbn [orb].
    destruct (nothingRemoved_call c Hc st) as [Hrepo Hrem].
    rewrite IH by (rewrite Hrepo; exact Hd).
    now rewrite Hrem, Hrepo.
Qed.

End Removal.

Section Outcomes.

Context `{Platform}.

Variable T : State -> option Exn -> State -> Prop.

Hypothesis T_ret : forall st, T st None st.
Hypothesis T_seq : forall a b c x, T a None b -> T b x c -> T a x c.
Hypothesis T_exec : forall partialCmd cmdOpts envVars,
  holds T (execInRepo partialCmd cmdOpts envVars).

Lemma holds_ret {A} (a : A) : holds T (ret a).
Proof. intros st. apply T_ret. Qed.

Lemma holds_bind {A B} (m : M A) (k : A -> M B) :
  holds T m -> (forall a, holds T (k a)) -> holds T (bind m k).
Proof.
  intros Hm Hk st. unfold bind. specialize (Hm st).
  destruct (m st) as [[a|e] st1]; cbn [fst snd outcome] in *; [|exact Hm].
  apply T_seq with st1; [exact Hm|apply Hk].
Qed.

Lemma holds_exec_ret (partialCmd : jsstring) (cmdOpts : option ICommnandOptions)
    (envVars : option Env) :
  holds T (bind (execInRepo partialCmd cmdOpts envVars) (fun _ => ret tt)).
Proof. apply holds_bind; [apply T_exec|intros; apply holds_ret]. Qed.

Lemma holds_currentBranch : holds T currentBranch.
Proof. apply holds_bind; [apply T_exec|intros; apply holds_ret]. Qed.

Lemma holds_fetch (remote : jsstring) (branch : Arg) (opts : option ICommnandOptions) :
  holds T (fetch remote branch opts).
Proof. destruct branch; apply holds_exec_ret. Qed.

Lemma holds_push (remote : jsstring) (localBranch remoteBranch : Arg)
    (opts : option ICommnandOptions) : holds T (push remote localBranch remoteBranch opts).
Proof.
  destruct localBranch; [| destruct remoteBranch |]; cbn [push];
    try apply holds_exec_ret;
    (apply holds_bind; [apply holds_currentBranch|intros; apply holds_exec_ret]).
Qed.

Lemma holds_setUserInfo (name email : jsstring) (ghToken : option jsstring) :
  (forall e, isWriteEvent e = true -> holds T (updProc (record e))) ->
  holds T (setUserInfo name email ghToken).
Proof.
  intros Hfile. unfold setUserInfo.
  apply holds_bind; [apply holds_exec_ret|intros _].
  apply holds_bind; [apply holds_exec_ret|intros _].
  destruct ghToken as [[|c t]|]; try apply holds_ret.
  apply holds_bind; [intros st; apply T_ret|intros st0].
  apply holds_bind; [now apply Hfile|intros _].
  apply holds_bind; [now apply Hfile|intros _].
  apply holds_exec_ret.
Qed.

Lemma holds_call (c : Call) :
  (forall e, isWriteEvent e = true -> holds T (updProc (record e))) ->
  isDestroy c = false -> holds T (invoke c).
Proof.
  intros Hfile.
  destruct c; cbn [isDestroy]; try discriminate; intros _; cbn [invoke]; unfold void;
    (apply holds_bind; [|intros; apply holds_ret]).
  - apply holds_currentBranch.
  - unfold addRemote. apply holds_bind; [apply T_exec|intros _; apply holds_exec_ret].
  - apply holds_exec_ret.
  - unfold commit. apply holds_bind; [apply T_exec|intros _; apply holds_exec_ret].
  - apply holds_exec_ret.
  - apply holds_push.
  - apply holds_fetch.
  - unfold getRemoteBranches.
    apply holds_bind; [apply holds_fetch|intros _].
    apply holds_bind; [apply T_exec|intros; apply holds_ret].
  - apply holds_exec_ret.
  - apply holds_push.
  - now apply holds_setUserInfo.
  - apply holds_exec_ret.
Qed.

End Outcomes.

Section Errors.

Context `{Platform}.

Lemma returnsLive_exec :
  neverRaises ->
  forall partialCmd cmdOpts envVars,
    holds returnsLive (execInRepo partialCmd cmdOpts envVars).
Proof.
  intros Hnr partialCmd cmdOpts envVars st Hd.
  rewrite (execInRepo_run _ _ _ _ Hd).
  destruct (Hnr (composed partialCmd cmdOpts) (handedEnv (proc st) envVars)
              (inside st partialCmd cmdOpts envVars)) as [out E].
  rewrite E. cbn. split; [reflexivity|exact Hd].
Qed.

Lemma returnsLive_call (c : Call) :
  neverRaises -> isDestroy c = false -> holds returnsLive (invoke c).
Proof.
  intros Hnr Hc. apply holds_call.
  - intros st Hd. now split.
  - intros a b d x Hab Hbd Ha. destruct (Hab Ha) as [_ Hb]. now apply Hbd.
  - now apply returnsLive_exec.
  - intros e _ st Hd. now split.
  - exact Hc.
Qed.

(** X5. Tool failures are not errors: when [sh.exec] always returns,
    whatever exit codes and output it gives, every call of any sequence of
    calls on a live session returns normally, up to and including the
    first [destroy].  The remotes handed to [getRemoteBranches] are free
    of regular-expression syntax characters: the pattern the code builds
    from another remote can fail to compile. *)
Theorem no_throw_on_tool_failure (cs : list Call) (st : State) :
  neverRaises ->
  destroyed (repo st) = false ->
  forallb (fun c => negb (isDestroy c)) cs = true ->
  forallb literalCall cs = true ->
  Forall (fun r => outcome r = None) (fst (invokeAll (cs ++ [CallDestroy]) st)).
Proof.
  intros Hnr. revert st. induction cs as [|c cs IH]; intros st Hd Hcs Hlit.
  - cbn [app invokeAll]. destruct (invoke CallDestroy st) as [r st1] eqn:E. cbn.
    constructor; [|constructor].
    cbn [invoke] in E. unfold void, bind in E.
    pose proof (destroy_sets_flag st) as [Hok _].
    destruct (destroy st) as [[a|e] s1]; cbn in Hok; [|discriminate Hok].
    unfold ret in E. now inversion E.
  - cbn [forallb] in Hcs, Hlit. apply andb_true_iff in Hcs as [Hc Hcs].
    apply andb_true_iff in Hlit as [_ Hlit].
    apply negb_true_iff in Hc.
    pose proof (returnsLive_call c Hnr Hc st Hd) as [Hnone Hlive].
    specialize (IH (snd (invoke c st)) Hlive Hcs Hlit).
    cbn [app invokeAll]. destruct (invoke c st) as [r st1]. cbn [fst snd] in *.
    destruct (invokeAll (cs ++ [CallDestroy]) st1) as [rs st2]. cbn [fst] in *.
    now constructor.
Qed.

Lemma blamed_exec (partialCmd : jsstring) (cmdOpts : option ICommnandOptions)
    (envVars : option Env) : holds blamed (execInRepo partialCmd cmdOpts envVars).
Proof.
  intros st. destruct (destroyed (repo st)) eqn:Hd.
  - rewrite (execInRepo_destroyed _ _ _ _ Hd). split; [reflexivity|].
    intros e E. cbn in E. inversion E. now left.
  - rewrite (execInRepo_run _ _ _ _ Hd). split; [reflexivity|].
    intros e E. right. cbn [fst snd] in *.
    exists st, partialCmd, cmdOpts, envVars.
    destruct (sh_exec _ _ _) as [out|e0]; [discriminate E|].
    cbn in E. inversion E. subst e0. split; reflexivity.
Qed.

Lemma destroy_returns (st : State) : fst (invoke CallDestroy st) = Ok Void.
Proof.
  cbn [invoke]. unfold void, bind.
  pose proof (destroy_sets_flag st) as [Hok _].
  destruct (destroy st) as [[a|e1] s1]; cbn in Hok; [reflexivity|discriminate Hok].
Qed.

(** X6. The only errors.  Whatever a call throws is either the
    session-destroyed error, thrown because the session was already
    destroyed, or the exception that [sh.exec] raised for the last
    command the call ran, after which the call did nothing but restore
    the directory; [destroy] never throws.  The remote handed to
    [getRemoteBranches] is free of regular-expression syntax characters:
    the pattern the code builds from another remote can fail to
    compile. *)
Theorem thrown_errors (c : Call) (st : State) :
  literalCall c = true ->
  (forall e,
     fst (invoke c st) = Throw e ->
     (e = RepositoryDestroyed /\ destroyed (repo st) = true) \/
     raisedLast (snd (invoke c st)) e) /\
  fst (invoke CallDestroy st) = Ok Void.
Proof.
  intros _. split; [|apply destroy_returns].
  intros e E.
  destruct (isDestroy c) eqn:Hc.
  - destruct c; try discriminate Hc. rewrite destroy_returns in E. discriminate E.
  - assert (Hb : holds blamed (invoke c)).
    { apply holds_call.
      - intros s. split; [reflexivity|discriminate].
      - intros a b d x [A1 _] [B1 B2]. split; [congruence|].
        intros e1 E1. rewrite <- A1. now apply B2.
      - exact blamed_exec.
      - intros ev _ s. split; [reflexivity|discriminate].
      - exact Hc. }
    destruct (Hb st) as [_ Hthrown]. apply Hthrown. now rewrite E.
Qed.

End Errors.

(** ** Operations of several steps *)

Section Steps.

Context `{Platform}.

Lemma trim_ends (c d : N) (mid : jsstring) :
  isWhiteSpace c = false -> isWhiteSpace d = false ->
  trim (c :: mid ++ [d]) = c :: mid ++ [d].
Proof.
  intros Hc Hd. apply trim_fixed; [exact Hc|]. apply trimEnd_last. exact Hd.
Qed.

Lemma removeCmd_verbatim (name : jsstring) :
  composed (u "git remote remove " ++ name ++ u " || true") None
  = u "git remote remove " ++ name ++ u " || true".
Proof.
  unfold composed. rewrite withOptions_none.
  assert (E : u "git remote remove " ++ name ++ u " || true"
              = 103 :: (u "it remote remove " ++ name ++ u " || tru") ++ [101]).
  { cbn [u app]. rewrite <- ?app_assoc. reflexivity. }
  rewrite E. now apply trim_ends.
Qed.

(** X7. [addRemote] removes, then adds.  On a live session it runs
    `git remote remove name || true` and then `git remote add name url`;
    the second command runs whatever the first one printed or returned as
    exit code, and is not run when [sh.exec] raised for the first: that
    exception is what [addRemote] throws. *)
Theorem addRemote_steps (name url : jsstring) (st : State) :
  destroyed (repo st) = false ->
  (answers (u "git remote remove " ++ name ++ u " || true") (fun _ => True) ->
   commands (proc (snd (addRemote name url st)))
   = commands (proc st) ++
     [u "git remote remove " ++ name ++ u " || true";
      trim (u "git remote add " ++ name ++ u " " ++ url)]) /\
  (forall e,
     (forall env p, sh_exec (u "git remote remove " ++ name ++ u " || true") env p = Throw e) ->
     fst (addRemote name url st) = Throw e /\
     commands (proc (snd (addRemote name url st)))
     = commands (proc st) ++ [u "git remote remove " ++ name ++ u " || true"]).
Proof.
  intros Hd. split.
  - intros Hrun. unfold addRemote. unfold bind at 1.
    rewrite execInRepo_run by exact Hd. rewrite removeCmd_verbatim.
    match goal with
    | |- context [sh_exec _ ?e ?p] => destruct (Hrun e p) as (out & E & _); rewrite E
    end.
    rewrite exec_then_ret by exact Hd. cbn [snd].
    rewrite !commands_after, <- app_assoc. now rewrite removeCmd_verbatim.
  - intros e Hraise. unfold addRemote. unfold bind at 1 3.
    rewrite execInRepo_run by exact Hd. rewrite removeCmd_verbatim, Hraise.
    cbn [fst snd]. split; [reflexivity|].
    rewrite commands_after. now rewrite removeCmd_verbatim.
Qed.

Lemma commands_record (e : Event) (p : Process) :
  isFileEvent e = true -> commands (record e p) = commands p.
Proof.
  intros He. unfold commands, record. cbn [history]. rewrite flat_map_app.
  destruct e; try discriminate He; cbn; now rewrite app_nil_r.
Qed.

Lemma config_verbatim (key value : jsstring) :
  composed (u "git config " ++ key ++ u " " ++ quoted value) None
  = u "git config " ++ key ++ u " " ++ quoted value.
Proof.
  unfold composed. rewrite withOptions_none.
  assert (E : u "git config " ++ key ++ u " " ++ quoted value
              = 103 :: (u "it config " ++ key ++ u " " ++ [DQUOTE] ++ value) ++ [DQUOTE]).
  { unfold quoted. cbn [u app]. rewrite <- ?app_assoc. reflexivity. }
  rewrite E. now apply trim_ends.
Qed.

Lemma config_run (key value : jsstring) (st : State) :
  neverRaises ->
  destroyed (repo st) = false ->
  exists out,
    config key (quoted value) st
    = (Ok tt, after st (u "git config " ++ key ++ u " " ++ quoted value) None None (Ok out)).
Proof.
  intros Hnr Hd. unfold config. rewrite exec_then_ret by exact Hd.
  match goal with
  | |- context [sh_exec ?c ?e ?p] => destruct (Hnr c e p) as [out E]; rewrite E
  end.
  now exists out.
Qed.

(** X8. [setUserInfo] and the credentials file.  When [sh.exec]
    returns, a non-empty token makes [setUserInfo] write
    `https://token:@github.com` to the session's credentials path and
    restrict it with `go-rwx`, after the two identity settings and
    before the `credential.helper` setting, which names that path; without
    a token, or with the empty string, no file is written and only the two
    identity settings are run.  When [sh.exec] raises for the first
    setting, nothing else is run and nothing is written. *)
Theorem setUserInfo_credentials (name email : jsstring) (st : State) :
  destroyed (repo st) = false ->
  (neverRaises ->
   forall c t,
     fileEvents (proc (snd (setUserInfo name email (Some (c :: t)) st)))
     = fileEvents (proc st) ++
       [WriteFile (credentialsPath (repo st)) (u "https://" ++ (c :: t) ++ u ":@github.com");
        Chmod (u "go-rwx") (credentialsPath (repo st))] /\
     commands (proc (snd (setUserInfo name email (Some (c :: t)) st)))
     = commands (proc st) ++
       [u "git config user.name " ++ quoted name;
        u "git config user.email " ++ quoted email;
        u "git config credential.helper " ++
        quoted (u "store --file=" ++ credentialsPath (repo st))] /\
     exists st2 block,
       commands (proc st2)
       = commands (proc st) ++
         [u "git config user.name " ++ quoted name; u "git config user.email " ++ quoted email] /\
       history (proc (snd (setUserInfo name email (Some (c :: t)) st)))
       = history (proc st2) ++
         [WriteFile (credentialsPath (repo st)) (u "https://" ++ (c :: t) ++ u ":@github.com");
          Chmod (u "go-rwx") (credentialsPath (repo st))] ++ block /\
       filter isFileEvent block = []) /\
  (neverRaises ->
   forall token,
     token = None \/ token = Some [] ->
     fileEvents (proc (snd (setUserInfo name email token st))) = fileEvents (proc st) /\
     commands (proc (snd (setUserInfo name email token st)))
     = commands (proc st) ++
       [u "git config user.name " ++ quoted name; u "git config user.email " ++ quoted email]) /\
  (forall e token,
     (forall env p, sh_exec (u "git config user.name " ++ quoted name) env p = Throw e) ->
     fst (setUserInfo name email token st) = Throw e /\
     fileEvents (proc (snd (setUserInfo name email token st))) = fileEvents (proc st) /\
     commands (proc (snd (setUserInfo name email token st)))
     = commands (proc st) ++ [u "git config user.name " ++ quoted name]).
Proof.
  intros Hd.
  split; [|split].
  - intros Hnr c t.
    destruct (config_run (u "user.name") name st Hnr Hd) as [out1 E1].
    pose (st1 := after st (u "git config " ++ u "user.name" ++ u " " ++ quoted name) None None (Ok out1)).
    destruct (config_run (u "user.email") email st1 Hnr Hd) as [out2 E2].
    pose (st2 := after st1 (u "git config " ++ u "user.email" ++ u " " ++ quoted email) None None (Ok out2)).
    pose (cp := credentialsPath (repo st)).
    pose (st3 := mkState (repo st2)
                   (record (Chmod (u "go-rwx") cp)
                      (record (WriteFile cp (u "https://" ++ (c :: t) ++ u ":@github.com"))
                         (proc st2)))).
    destruct (config_run (u "credential.helper") (u "store --file=" ++ cp) st3 Hnr Hd)
      as [out3 E3].
    assert (Hrun : setUserInfo name email (Some (c :: t)) st
                   = (Ok tt, after st3 (u "git config " ++ u "credential.helper" ++ u " " ++
                                        quoted (u "store --file=" ++ cp)) None None (Ok out3))).
    { unfold setUserInfo. unfold bind at 1.
      rewrite E1. fold st1. unfold bind at 1.
      rewrite E2. fold st2.
      unfold bind at 1. unfold getState at 1.
      unfold bind at 1. unfold sh_writeTo at 1. unfold updProc at 1.
      unfold bind at 1. unfold sh_chmod at 1. unfold updProc at 1.
      cbn [repo proc]. exact E3. }
    rewrite Hrun. cbn [snd].
    split; [|split].
    + rewrite fileEvents_after. unfold st3, fileEvents, record. cbn [proc history].
      rewrite <- app_assoc, filter_app. cbn [filter isFileEvent app].
      fold (fileEvents (proc st2)). unfold st2. rewrite fileEvents_after.
      unfold st1. rewrite fileEvents_after. reflexivity.
    + rewrite commands_after, config_verbatim.
      replace (commands (proc st3)) with (commands (proc st2)).
      * unfold st2. rewrite commands_after, config_verbatim.
        unfold st1. rewrite commands_after, config_verbatim.
        rewrite <- !app_assoc. reflexivity.
      * unfold st3. cbn [proc]. now rewrite !commands_record.
    + exists st2.
      eexists. split; [|split].
      * unfold st2. rewrite commands_after, config_verbatim.
        unfold st1. rewrite commands_after, config_verbatim.
        rewrite <- !app_assoc. reflexivity.
      * unfold after at 1. cbn [proc history]. unfold st3 at 1, record.
        cbn [proc history]. rewrite <- !app_assoc. cbn [app]. reflexivity.
      * cbn [filter isFileEvent]. rewrite filter_app, outputLog_no_file. reflexivity.
  - intros Hnr token Htok.
    destruct (config_run (u "user.name") name st Hnr Hd) as [out1 E1].
    pose (st1 := after st (u "git config " ++ u "user.name" ++ u " " ++ quoted name) None None (Ok out1)).
    destruct (config_run (u "user.email") email st1 Hnr Hd) as [out2 E2].
    assert (Hrun : setUserInfo name email token st
                   = (Ok tt, after st1 (u "git config " ++ u "user.email" ++ u " " ++ quoted email)
                               None None (Ok out2))).
    { unfold setUserInfo. unfold bind at 1.
      rewrite E1. fold st1. unfold bind at 1.
      rewrite E2. destruct Htok as [-> | ->]; reflexivity. }
    rewrite Hrun. cbn [snd]. split.
    + rewrite fileEvents_after. unfold st1. now rewrite fileEvents_after.
    + rewrite commands_after, config_verbatim.
      unfold st1. rewrite commands_after, config_verbatim.
      rewrite <- !app_assoc. reflexivity.
  - intros e token Hraise.
    assert (Hrun : setUserInfo name email token st
                   = (Throw e, after st (u "git config " ++ u "user.name" ++ u " " ++ quoted name)
                                 None None (Throw e))).
    { unfold setUserInfo. unfold bind at 1. unfold config at 1.
      rewrite exec_then_ret by exact Hd.
      rewrite config_verbatim.
      pose proof (Hraise (handedEnv (proc st) None)
                    (inside st (u "git config " ++ u "user.name" ++ u " " ++ quoted name)
                       None None)) as E.
      change (u "git config user.name " ++ quoted name)
        with (u "git config " ++ u "user.name" ++ u " " ++ quoted name) in E.
      rewrite E. reflexivity. }
    rewrite Hrun. cbn [fst snd]. split; [reflexivity|]. split.
    + apply fileEvents_after.
    + rewrite commands_after. now rewrite config_verbatim.
Qed.

End Steps.

(** ** The environment handed to a command *)

Section Environment.

Lemma envGet_envSet_same (k : jsstring) (v : option jsstring) (e : Env) :
  envGet k (envSet k v e) = Some v.
Proof.
  induction e as [|[k' v'] e IH]; cbn.
  - now rewrite eqb_refl.
  - destruct (JS.eqb k k') eqn:E; cbn; now rewrite E.
Qed.

Lemma envGet_envSet_other (k k' : jsstring) (v : option jsstring) (e : Env) :
  JS.eqb k k' = false -> envGet k (envSet k' v e) = envGet k e.
Proof.
  intros Hk. induction e as [|[k2 v2] e IH]; cbn.
  - now rewrite Hk.
  - destruct (JS.eqb k' k2) eqn:E; cbn.
    + apply eqb_eq in E. subst k2. now rewrite Hk.
    + destruct (JS.eqb k k2); [reflexivity|exact IH].
Qed.

Lemma envGet_app (k : jsstring) (a b : Env) :
  envGet k (a ++ b) = match envGet k a with Some v => Some v | None => envGet k b end.
Proof.
  induction a as [|[k' v'] a IH]; cbn; [reflexivity|].
  destruct (JS.eqb k k'); [reflexivity|exact IH].
Qed.

(** X9. Extra environment variables override, the rest is
    inherited.  In the environment [{...process.env, ...envVars}] a key
    of [envVars] has the value [envVars] gives it (the last one, should it
    be listed twice), and every other key has the value it has in
    [process.env], or none. *)
Theorem extra_variables_override (base extra : Env) (k : jsstring) :
  envGet k (envMerge base extra)
  = match envGet k (rev extra) with
    | Some v => Some v
    | None => envGet k base
    end.
Proof.
  unfold envMerge. revert base.
  induction extra as [|[kx vx] extra IH]; intros base; [reflexivity|].
  cbn [fold_left fst snd rev]. rewrite IH, envGet_app.
  destruct (envGet k (rev extra)); [reflexivity|].
  cbn [envGet]. destruct (JS.eqb k kx) eqn:E.
  - apply eqb_eq in E. subst kx. apply envGet_envSet_same.
  - now apply envGet_envSet_other.
Qed.

End Environment.

Section CommitSteps.

Context `{Platform}.

(** X10. The two steps of [commit].  On a live session, with any
    options, `git commit` runs first with no environment of its own; when
    it returns, whatever its exit code, `git filter-branch` runs next
    with an environment in which [FILTER_BRANCH_SQUELCH_WARNING] is [1];
    when [sh.exec] raises for `git commit`, the rewrite is not run and
    [commit] throws that exception. *)
Theorem commit_steps (msg : jsstring) (opts : option ICommnandOptions) (st : State) :
  destroyed (repo st) = false ->
  (answers (composed (u "git commit")
              (Some (Obj.set (u "message") (VStr (tempMsgArg msg)) (Obj.spread opts))))
           (fun _ => True) ->
   exists env,
     executions (proc (snd (commit msg opts st)))
     = executions (proc st) ++
       [(composed (u "git commit")
           (Some (Obj.set (u "message") (VStr (tempMsgArg msg)) (Obj.spread opts))), None);
        (filterBranchCmd, Some env)] /\
     envGet (u "FILTER_BRANCH_SQUELCH_WARNING") env = Some (Some (u "1"))) /\
  (forall e,
     (forall env p,
        sh_exec (composed (u "git commit")
                   (Some (Obj.set (u "message") (VStr (tempMsgArg msg)) (Obj.spread opts))))
          env p = Throw e) ->
     fst (commit msg opts st) = Throw e /\
     executions (proc (snd (commit msg opts st)))
     = executions (proc st) ++
       [(composed (u "git commit")
           (Some (Obj.set (u "message") (VStr (tempMsgArg msg)) (Obj.spread opts))), None)]).
Proof.
  intros Hd. split.
  - intros Hrun.
    exists (envMerge (processEnv (proc st)) [(u "FILTER_BRANCH_SQUELCH_WARNING", Some (u "1"))]).
    split.
    + unfold commit. unfold bind at 1.
      rewrite execInRepo_run by exact Hd.
      match goal with
      | |- context [sh_exec _ ?e ?p] => destruct (Hrun e p) as (out & E & _); rewrite E
      end.
      rewrite exec_then_ret by exact Hd. cbn [snd].
      rewrite !executions_after, <- app_assoc. rewrite filterBranchCmd_composed.
      reflexivity.
    + unfold envMerge. cbn [fold_left fst snd]. apply envGet_envSet_same.
  - intros e Hraise. unfold commit. unfold bind at 1 3.
    rewrite execInRepo_run by exact Hd. rewrite Hraise. cbn [fst snd].
    split; [reflexivity|]. now rewrite executions_after.
Qed.

End CommitSteps.

(** ** More on the rendering of options *)

Section MoreRendering.

Lemma join_app (sep : jsstring) (a b : list jsstring) :
  a <> [] -> b <> [] -> join sep (a ++ b) = join sep a ++ sep ++ join sep b.
Proof.
  intros Ha Hb. induction a as [|x a IH]; [congruence|].
  destruct a as [|y a].
  - cbn [app]. now rewrite join_cons.
  - change ((x :: y :: a) ++ b) with (x :: ((y :: a) ++ b)).
    rewrite join_cons by discriminate. rewrite IH by discriminate.
    rewrite (join_cons sep x (y :: a)) by discriminate.
    now rewrite <- !app_assoc.
Qed.

Lemma get_app_absent (k : jsstring) (a b : ICommnandOptions) :
  Obj.get k a = None -> Obj.get k (a ++ b) = Obj.get k b.
Proof.
  induction a as [|[k' v'] a IH]; cbn; [reflexivity|].
  destruct (JS.eqb k k'); [discriminate|exact IH].
Qed.

Lemma without_app (k : jsstring) (a b : ICommnandOptions) :
  Obj.without k (a ++ b) = Obj.without k a ++ Obj.without k b.
Proof. apply filter_app. Qed.

Lemma retainedEntries_app (a b : ICommnandOptions) :
  CommandBuilder.retainedEntries (a ++ b)
  = CommandBuilder.retainedEntries a ++ CommandBuilder.retainedEntries b.
Proof.
  induction a as [|[k v] a IH]; cbn; [reflexivity|].
  destruct (CommandBuilder.retain v); cbn; now rewrite IH.
Qed.

Lemma flags_append (A : Type) (f : A -> jsstring) (cmd : jsstring) (n1 n2 : list A) :
  (if Nat.ltb 0 (length (n1 ++ n2))
   then cmd ++ [SP] ++ join [SP] (map f (n1 ++ n2)) else cmd)
  = (if Nat.ltb 0 (length n2)
     then (if Nat.ltb 0 (length n1) then cmd ++ [SP] ++ join [SP] (map f n1) else cmd)
          ++ [SP] ++ join [SP] (map f n2)
     else (if Nat.ltb 0 (length n1) then cmd ++ [SP] ++ join [SP] (map f n1) else cmd)).
Proof.
  destruct n1 as [|a n1]; [reflexivity|].
  destruct n2 as [|b n2].
  - now rewrite app_nil_r.
  - rewrite map_app. cbn [length Nat.ltb Nat.leb app].
    rewrite join_app by discriminate. now rewrite <- !app_assoc.
Qed.

(** X11. Options compose.  Rendering the entries of two objects one
    after the other is rendering the first object and then, on the
    result, the second, as long as the first has no trailing arguments:
    flags keep the order of the entries and are separated by single
    spaces. *)
Theorem withOptions_append (cmd : jsstring) (o1 o2 : ICommnandOptions) :
  Obj.get (u "--") o1 = None ->
  CommandBuilder.withOptions cmd (Some (o1 ++ o2))
  = CommandBuilder.withOptions (CommandBuilder.withOptions cmd (Some o1)) (Some o2).
Proof.
  intros Hg. unfold CommandBuilder.withOptions, CommandBuilder.normalizedCmdOpts.
  cbn [Obj.spread].
  rewrite (get_app_absent _ _ _ Hg), Hg, without_app, retainedEntries_app, map_app.
  cbn [CommandBuilder.truthyValue option_map].
  rewrite flags_append.
  destruct (option_map CommandBuilder.normalizeValue
              (CommandBuilder.truthyValue (Obj.get (u "--") o2))); reflexivity.
Qed.

(** X12. The place of the reserved key does not matter: with the list
    of trailing arguments anywhere among the entries, the command is the
    same as with it last. *)
Theorem trailing_key_anywhere (cmd : jsstring) (o1 o2 : ICommnandOptions) (v : OptValue) :
  Obj.get (u "--") o1 = None ->
  Obj.get (u "--") o2 = None ->
  CommandBuilder.withOptions cmd (Some (o1 ++ (u "--", v) :: o2))
  = CommandBuilder.withOptions cmd (Some (o1 ++ o2 ++ [(u "--", v)])).
Proof.
  intros H1 H2. unfold CommandBuilder.withOptions. cbn [Obj.spread].
  rewrite !(get_app_absent _ _ _ H1), (get_app_absent _ _ _ H2).
  rewrite !without_app. cbn [Obj.get]. rewrite eqb_refl.
  unfold Obj.without at 2 5. cbn [filter fst]. rewrite eqb_refl. cbn [negb].
  now rewrite app_nil_r.
Qed.

(** X13. Falsy trailing arguments.  When the reserved key is missing
    or holds [undefined], [false] or the empty string, no separator is
    added: the command is the one of the object without that key.  An
    empty list and [true] are truthy: they add the separator ` -- ` with
    nothing after it. *)
Theorem falsy_trailing_arguments (cmd : jsstring) (o : ICommnandOptions) :
  (Obj.get (u "--") o = None \/ Obj.get (u "--") o = Some VUndefined \/
   Obj.get (u "--") o = Some (VBool false) \/ Obj.get (u "--") o = Some (VStr []) ->
   CommandBuilder.withOptions cmd (Some o)
   = CommandBuilder.withOptions cmd (Some (Obj.without (u "--") o))) /\
  (Obj.get (u "--") o = Some (VList []) \/ Obj.get (u "--") o = Some (VBool true) ->
   CommandBuilder.withOptions cmd (Some o)
   = CommandBuilder.withOptions cmd (Some (Obj.without (u "--") o)) ++ u " -- ").
Proof.
  split.
  - intros Hg. unfold CommandBuilder.withOptions. cbn [Obj.spread].
    rewrite get_without, without_idem.
    destruct Hg as [Hg|[Hg|[Hg|Hg]]]; rewrite Hg; reflexivity.
  - intros Hg. unfold CommandBuilder.withOptions. cbn [Obj.spread].
    rewrite get_without, without_idem.
    destruct Hg as [Hg|Hg]; rewrite Hg; reflexivity.
Qed.

Lemma trim_all_blank (ws : jsstring) : forallb isWhiteSpace ws = true -> trim ws = [].
Proof.
  intros E. rewrite <- (app_nil_r ws). change (ws ++ []) with (ws ++ [] ++ []).
  now rewrite trim_surrounded.
Qed.

(** X14. Values are trimmed with their flag: blanks at the end of a
    string value do not reach the command, and a value made of blanks
    only, the empty string included, renders the bare flag, as [true]
    does. *)
Theorem value_blanks_dropped (key value ws : jsstring) :
  forallb isWhiteSpace ws = true ->
  rendered key (RStr (value ++ ws)) = rendered key (RStr value) /\
  rendered key (RStr ws) = rendered key RTrue.
Proof.
  intros E. unfold rendered, CommandBuilder.renderOpt.
  cbn [fst snd CommandBuilder.normalizeValue map join]. split.
  - rewrite <- (trim_surrounded [] (CommandBuilder.flagName key ++ [SP] ++ value) ws)
      by (reflexivity || exact E).
    cbn [app]. now rewrite <- !app_assoc.
  - rewrite <- (trim_surrounded [] (CommandBuilder.flagName key ++ [SP] ++ []) ws)
      by (reflexivity || exact E).
    cbn [app]. rewrite <- !app_assoc. reflexivity.
Qed.

End MoreRendering.

(** ** More on commit messages and staged files *)

Section MoreCommit.

Context `{Platform}.

Lemma splitNewlines_plain (c : N) (r : jsstring) :
  (c =? CR) = false -> (c =? LF) = false ->
  splitNewlines (c :: r) = consHead c (splitNewlines r).
Proof.
  intros Hcr Hlf. cbn [splitNewlines]. rewrite Hlf, Hcr. cbn [andb].
  now destruct r.
Qed.

Lemma splitNewlines_line_then (l rest : jsstring) :
  isLine l = true ->
  splitNewlines (l ++ LF :: rest) = l :: splitNewlines rest /\
  splitNewlines (l ++ CR :: LF :: rest) = l :: splitNewlines rest.
Proof.
  induction l as [|c l IH]; intros Hl; [split; reflexivity|].
  cbn [isLine forallb] in Hl. apply andb_true_iff in Hl as [Hc Hl].
  apply negb_true_iff, orb_false_iff in Hc as [Hcr Hlf].
  destruct (IH Hl) as [IH1 IH2].
  cbn [app]. rewrite !(splitNewlines_plain c _ Hcr Hlf), IH1, IH2. split; reflexivity.
Qed.

Lemma splitNewlines_line (l : jsstring) : isLine l = true -> splitNewlines l = [l].
Proof.
  induction l as [|c l IH]; intros Hl; [reflexivity|].
  cbn [isLine forallb] in Hl. apply andb_true_iff in Hl as [Hc Hl].
  apply negb_true_iff, orb_false_iff in Hc as [Hcr Hlf].
  rewrite (splitNewlines_plain c _ Hcr Hlf), (IH Hl). reflexivity.
Qed.

Lemma splitNewlines_join (lines : list jsstring) :
  lines <> [] -> Forall (fun l => isLine l = true) lines ->
  splitNewlines (join [LF] lines) = lines /\ splitNewlines (join [CR; LF] lines) = lines.
Proof.
  induction lines as [|l lines IH]; intros Hne Hl; [congruence|].
  inversion Hl as [|? ? Hl1 Hl2]; subst.
  destruct lines as [|l2 lines].
  - cbn [join]. split; now apply splitNewlines_line.
  - destruct (IH ltac:(discriminate) Hl2) as [IH1 IH2].
    rewrite (join_cons [LF]), (join_cons [CR; LF]) by discriminate. cbn [app].
    destruct (splitNewlines_line_then l (join [LF] (l2 :: lines)) Hl1) as [E1 _].
    destruct (splitNewlines_line_then l (join [CR; LF] (l2 :: lines)) Hl1) as [_ E2].
    rewrite E1, E2, IH1, IH2. split; reflexivity.
Qed.

(** X15. Windows and Unix line endings give the same commit.  For
    lines without line breaks in them, joined once by `\r\n` and once
    by `\n` (neither text having blanks around it), [commit] runs the same
    commands: the carriage returns do not reach the message argument. *)
Theorem commit_line_endings (lines : list jsstring) (opts : option ICommnandOptions) :
  lines <> [] ->
  Forall (fun l => isLine l = true) lines ->
  trim (join [CR; LF] lines) = join [CR; LF] lines ->
  trim (join [LF] lines) = join [LF] lines ->
  tempMsgArg (join [CR; LF] lines) = quoted (join NEWLINE_PLACEHOLDER lines) /\
  commit (join [CR; LF] lines) opts = commit (join [LF] lines) opts.
Proof.
  intros Hne Hl Hcrlf Hlf.
  destruct (splitNewlines_join lines Hne Hl) as [E1 E2].
  assert (Ha : tempMsgArg (join [CR; LF] lines) = quoted (join NEWLINE_PLACEHOLDER lines)).
  { unfold tempMsgArg. now rewrite Hcrlf, E2. }
  assert (Hb : tempMsgArg (join [LF] lines) = quoted (join NEWLINE_PLACEHOLDER lines)).
  { unfold tempMsgArg. now rewrite Hlf, E1. }
  split; [exact Ha|]. unfold commit. now rewrite Ha, Hb.
Qed.

(** X16. A blank message.  For a message of blanks only, the empty
    string included, the message argument is a pair of double quotes, and
    on a live session [commit] runs `git commit --message ""`. *)
Theorem commit_blank_message (msg : jsstring) (st : State) :
  forallb isWhiteSpace msg = true ->
  destroyed (repo st) = false ->
  tempMsgArg msg = [DQUOTE; DQUOTE] /\
  exists later,
    commands (proc (snd (commit msg None st)))
    = commands (proc st) ++ (u "git commit --message " ++ [DQUOTE; DQUOTE]) :: later.
Proof.
  intros Hb Hd.
  assert (Ha : tempMsgArg msg = quoted []).
  { unfold tempMsgArg. now rewrite trim_all_blank. }
  split; [exact Ha|].
  unfold commit. rewrite Ha. unfold bind at 1.
  rewrite execInRepo_run by exact Hd. rewrite commit_command.
  match goal with |- context [sh_exec ?c ?e ?p] => destruct (sh_exec c e p) as [out|e0] end.
  - exists [composed filterBranchCmd None].
    rewrite exec_then_ret by exact Hd. cbn [snd].
    rewrite !commands_after, <- app_assoc. now rewrite commit_command.
  - exists []. cbn [snd]. rewrite commands_after. now rewrite commit_command.
Qed.

Lemma set_set (k : jsstring) (v w : OptValue) (o : ICommnandOptions) :
  Obj.set k w (Obj.set k v o) = Obj.set k w o.
Proof.
  induction o as [|[k' v'] o IH]; cbn.
  - now rewrite eqb_refl.
  - destruct (JS.eqb k k') eqn:E; cbn; rewrite E; [reflexivity|now rewrite IH].
Qed.


(** X18. [stage] overrides trailing arguments of the caller: whatever
    the options hold under the reserved key, the files staged are the
    ones of the first argument. *)
Theorem stage_overrides_trailing (files : list jsstring) (o : ICommnandOptions) (v : OptValue) :
  stage files (Some (Obj.set (u "--") v o)) = stage files (Some o).
Proof. unfold stage. cbn [Obj.spread]. now rewrite set_set. Qed.

End MoreCommit.

(** ** More on running commands and listing branches *)

Section MoreRunning.

Context `{Platform}.

(** X19. The partial command is trimmed before the options are added:
    blanks and line breaks around it change nothing of what
    [execInRepo] does or returns. *)
Theorem execInRepo_trims_command (ws partialCmd ws' : jsstring)
    (cmdOpts : option ICommnandOptions) (envVars : option Env) (st : State) :
  forallb isWhiteSpace ws = true ->
  forallb isWhiteSpace ws' = true ->
  execInRepo (ws ++ partialCmd ++ ws') cmdOpts envVars st
  = execInRepo partialCmd cmdOpts envVars st.
Proof.
  intros E E'.
  destruct (destroyed (repo st)) eqn:Hd.
  - now rewrite !(execInRepo_destroyed _ _ _ _ Hd).
  - rewrite !(execInRepo_run _ _ _ _ Hd).
    unfold after, inside, composed. now rewrite (trim_surrounded ws partialCmd ws' E E').
Qed.

(** X20. The current branch comes without blanks around it: whenever
    [currentBranch] returns a name, trimming that name changes nothing,
    so the trailing line break of the tool's output never reaches a
    command built from it. *)
Theorem currentBranch_trimmed (st : State) (b : jsstring) :
  fst (currentBranch st) = Ok b -> trim b = b.
Proof.
  unfold currentBranch, bind.
  destruct (execInRepo (u "git rev-parse --abbrev-ref HEAD") None None st) as [[out|e] st1].
  - unfold ret. cbn [fst]. intros E. inversion E. apply trim_idem.
  - discriminate.
Qed.

Lemma splitLF_not_nil (s : jsstring) : splitLF s <> [].
Proof.
  destruct s as [|c r]; cbn; [discriminate|].
  destruct (c =? LF); [discriminate|apply consHead_not_nil].
Qed.

Lemma consHead_app (c : N) (a b : list jsstring) :
  a <> [] -> consHead c (a ++ b) = consHead c a ++ b.
Proof. destruct a; [congruence|reflexivity]. Qed.

Lemma splitLF_app (a b : jsstring) : splitLF (a ++ LF :: b) = splitLF a ++ splitLF b.
Proof.
  induction a as [|c a IH]; [reflexivity|].
  cbn [app splitLF]. rewrite IH.
  destruct (c =? LF); [reflexivity|].
  apply consHead_app. apply splitLF_not_nil.
Qed.

(** X21. Branch listings are read line by line: the branches found in
    two listings put one after the other, a line feed between them, are
    the branches of the first followed by the branches of the second.
    (The remote is free of regular-expression syntax characters.) *)
Theorem parseRemoteBranches_app (remote a b : jsstring) :
  literalSource (remote ++ u "/") = true ->
  parseRemoteBranches remote (a ++ [LF] ++ b)
  = parseRemoteBranches remote a ++ parseRemoteBranches remote b.
Proof.
  intros _. unfold parseRemoteBranches. cbn [app].
  now rewrite splitLF_app, map_app, filter_app, map_app.
Qed.

End MoreRunning.

(** ** The placeholder substitution loses nothing *)

Section Substitution.

Context `{Platform}.

Lemma restore_substituted (msg : jsstring) (c : N) (rest : jsstring) :
  NEWLINE_PLACEHOLDER = c :: rest ->
  ~ In c msg ->
  CommitMessage.hasCRLF msg = false ->
  CommitMessage.restoreFrom NEWLINE_PLACEHOLDER 0
    (join NEWLINE_PLACEHOLDER (splitNewlines msg)) = msg.
Proof.
  intros Hph Hc Hcrlf. rewrite Hph. rewrite restoreFrom_join.
  - now apply join_splitNewlines.
  - intros line Hl Hin. apply Hc. now apply splitNewlines_In with line.
Qed.

(** X22. The message argument determines the message.  Two messages
    without blanks around them and without a carriage return before a
    line feed, neither containing the first code unit of the placeholder,
    that [commit] turns into the same message argument are the same
    message: replacing the newlines by the placeholder loses nothing. *)
Theorem placeholder_substitution_injective (m1 m2 : jsstring) (c : N) (rest : jsstring) :
  NEWLINE_PLACEHOLDER = c :: rest ->
  ~ In c m1 -> ~ In c m2 ->
  trim m1 = m1 -> trim m2 = m2 ->
  CommitMessage.hasCRLF m1 = false -> CommitMessage.hasCRLF m2 = false ->
  tempMsgArg m1 = tempMsgArg m2 ->
  m1 = m2.
Proof.
  intros Hph Hc1 Hc2 Ht1 Ht2 Hn1 Hn2 E.
  unfold tempMsgArg in E. rewrite Ht1, Ht2 in E.
  apply app_inv_head, app_inv_tail in E.
  rewrite <- (restore_substituted m1 c rest Hph Hc1 Hn1).
  rewrite <- (restore_substituted m2 c rest Hph Hc2 Hn2).
  now rewrite E.
Qed.

End Substitution.

Lemma placeholder_substitution_injective_witness :
  u "line1" ++ [LF] ++ u "line2" = u "line1" ++ [LF] ++ (u "line" ++ u "2").
Proof.
  assert (Hc : ~ In 60 (u "line1" ++ [LF] ++ u "line2")).
  { intros Hin. repeat (destruct Hin as [Hin|Hin]; [discriminate Hin|]). exact Hin. }
  exact (@placeholder_substitution_injective examplePlatform
           (u "line1" ++ [LF] ++ u "line2") (u "line1" ++ [LF] ++ (u "line" ++ u "2"))
           60 (u "NEWLINE>") eq_refl Hc Hc eq_refl eq_refl eq_refl eq_refl eq_refl).
Defined.

(** ** The further properties at concrete inputs *)

Lemma only_destroy_changes_session_witness :
  repo (snd (invokeAll (H := failingPlatform)
               [CallCommit (u "m") None; CallPush (u "origin") ArgUndefined ArgUndefined None;
                CallSetUserInfo (u "Jo") (u "jo@x.io") (Some (u "t0k"))]
               exampleState))
  = exampleRepo.
Proof.
  exact (@only_destroy_changes_session failingPlatform
           [CallCommit (u "m") None; CallPush (u "origin") ArgUndefined ArgUndefined None;
            CallSetUserInfo (u "Jo") (u "jo@x.io") (Some (u "t0k"))]
           exampleState eq_refl).
Defined.

Lemma only_two_operations_touch_files_witness :
  fileEvents (proc (snd (invokeAll (H := examplePlatform)
                           [CallCommit (u "m") None; CallFetch (u "origin") ArgUndefined None;
                            CallGetRemoteBranches (u "origin")]
                           exampleState)))
  = [].
Proof.
  exact (@only_two_operations_touch_files examplePlatform
           [CallCommit (u "m") None; CallFetch (u "origin") ArgUndefined None;
            CallGetRemoteBranches (u "origin")]
           exampleState eq_refl).
Defined.

Lemma no_throw_on_tool_failure_witness :
  Forall (fun r => outcome r = None)
    (fst (invokeAll (H := removeFailsPlatform)
            ([CallAddRemote (u "up") (u "https://x/y.git"); CallCommit (u "m") None;
              CallGetRemoteBranches (u "origin")]
             ++ [CallDestroy])
            exampleState)).
Proof.
  assert (Hnr : neverRaises (H := removeFailsPlatform)).
  { intros cmd env p. unfold sh_exec, removeFailsPlatform.
    destruct (startsWith cmd (u "git remote remove")); eexists; reflexivity. }
  exact (@no_throw_on_tool_failure removeFailsPlatform
           [CallAddRemote (u "up") (u "https://x/y.git"); CallCommit (u "m") None;
            CallGetRemoteBranches (u "origin")]
           exampleState Hnr eq_refl eq_refl eq_refl).
Defined.

Lemma thrown_errors_witness :
  (HostError (u "spawn failed") = RepositoryDestroyed /\ destroyed (repo exampleState) = true)
  \/ raisedLast (H := failingPlatform)
       (snd (invoke (H := failingPlatform) (CallGetRemoteBranches (u "origin")) exampleState))
       (HostError (u "spawn failed")).
Proof.
  exact (proj1 (@thrown_errors failingPlatform (CallGetRemoteBranches (u "origin"))
                  exampleState eq_refl)
           (HostError (u "spawn failed")) eq_refl).
Defined.

Lemma addRemote_steps_witness :
  commands (proc (snd (addRemote (H := removeFailsPlatform) (u "up") (u "https://x/y.git")
                         exampleState)))
  = [u "git remote remove up || true"; u "git remote add up https://x/y.git"].
Proof.
  assert (Hrun : answers (H := removeFailsPlatform)
                   (u "git remote remove " ++ u "up" ++ u " || true") (fun _ => True)).
  { intros env p. eexists. split; [reflexivity|exact I]. }
  exact (proj1 (@addRemote_steps removeFailsPlatform (u "up") (u "https://x/y.git")
                  exampleState eq_refl) Hrun).
Defined.

Lemma setUserInfo_credentials_witness :
  fileEvents (proc (snd (setUserInfo (H := examplePlatform) (u "Jo") (u "jo@x.io")
                           (Some (u "t0k")) exampleState)))
  = [WriteFile (u "/tmp/work/repo/.git/.git-credentials--1700000000000")
       (u "https://t0k:@github.com");
     Chmod (u "go-rwx") (u "/tmp/work/repo/.git/.git-credentials--1700000000000")]
  /\
  fileEvents (proc (snd (setUserInfo (H := examplePlatform) (u "Jo") (u "jo@x.io")
                           (Some []) exampleState)))
  = [].
Proof.
  assert (Hnr : neverRaises (H := examplePlatform)).
  { intros cmd env p. unfold sh_exec, examplePlatform, exampleExec.
    destruct (JS.eqb cmd (u "git rev-parse --abbrev-ref HEAD")); [eexists; reflexivity|].
    destruct (JS.eqb cmd (u "git branch --remote")); eexists; reflexivity. }
  destruct (@setUserInfo_credentials examplePlatform (u "Jo") (u "jo@x.io") exampleState
              eq_refl) as (Hwith & Hwithout & _).
  split.
  - exact (proj1 (Hwith Hnr 116 (u "0k"))).
  - exact (proj1 (Hwithout Hnr (Some []) (or_intror eq_refl))).
Defined.

Lemma commit_steps_witness :
  exists env,
    executions (proc (snd (commit (H := removeFailsPlatform) (u "one") None exampleState)))
    = [(u "git commit --message " ++ quoted (u "one"), None);
       (filterBranchCmd (H := removeFailsPlatform), Some env)] /\
    envGet (u "FILTER_BRANCH_SQUELCH_WARNING") env = Some (Some (u "1")).
Proof.
  assert (Hrun : answers (H := removeFailsPlatform)
            (composed (u "git commit")
               (Some (Obj.set (u "message")
                        (VStr (tempMsgArg (H := removeFailsPlatform) (u "one")))
                        (Obj.spread None))))
            (fun _ => True)).
  { intros env p. eexists. split; [reflexivity|exact I]. }
  exact (proj1 (@commit_steps removeFailsPlatform (u "one") None exampleState eq_refl) Hrun).
Defined.

Lemma withOptions_append_witness :
  CommandBuilder.withOptions (u "git log")
    (Some ([(u "n", VStr (u "3")); (u "q", VBool false)]
           ++ [(u "all", VBool true); (u "--", VList [u "src"])]))
  = CommandBuilder.withOptions
      (CommandBuilder.withOptions (u "git log")
         (Some [(u "n", VStr (u "3")); (u "q", VBool false)]))
      (Some [(u "all", VBool true); (u "--", VList [u "src"])]).
Proof.
  exact (withOptions_append (u "git log") [(u "n", VStr (u "3")); (u "q", VBool false)]
           [(u "all", VBool true); (u "--", VList [u "src"])] eq_refl).
Defined.

Lemma trailing_key_anywhere_witness :
  CommandBuilder.withOptions (u "git add")
    (Some ([(u "force", VBool true)] ++ (u "--", VList [u "a"; u "b"]) :: [(u "v", VBool true)]))
  = CommandBuilder.withOptions (u "git add")
      (Some ([(u "force", VBool true)] ++ [(u "v", VBool true)] ++ [(u "--", VList [u "a"; u "b"])])).
Proof.
  exact (trailing_key_anywhere (u "git add") [(u "force", VBool true)] [(u "v", VBool true)]
           (VList [u "a"; u "b"]) eq_refl eq_refl).
Defined.

Lemma falsy_trailing_arguments_witness :
  CommandBuilder.withOptions (u "git add") (Some [(u "v", VBool true); (u "--", VStr [])])
  = CommandBuilder.withOptions (u "git add") (Some [(u "v", VBool true)])
  /\
  CommandBuilder.withOptions (u "git add") (Some [(u "v", VBool true); (u "--", VList [])])
  = CommandBuilder.withOptions (u "git add") (Some [(u "v", VBool true)]) ++ u " -- ".
Proof.
  split.
  - exact (proj1 (falsy_trailing_arguments (u "git add")
                    [(u "v", VBool true); (u "--", VStr [])])
             (or_intror (or_intror (or_intror eq_refl)))).
  - exact (proj2 (falsy_trailing_arguments (u "git add")
                    [(u "v", VBool true); (u "--", VList [])])
             (or_introl eq_refl)).
Defined.

Lemma value_blanks_dropped_witness :
  rendered (u "m") (RStr (u "fix" ++ [SP; 9])) = rendered (u "m") (RStr (u "fix")) /\
  rendered (u "m") (RStr [SP; 9]) = rendered (u "m") RTrue.
Proof.
  exact (value_blanks_dropped (u "m") (u "fix") [SP; 9] eq_refl).
Defined.

Lemma commit_line_endings_witness :
  tempMsgArg (H := examplePlatform) (u "a" ++ [CR; LF] ++ u "b")
  = quoted (u "a<NEWLINE>b") /\
  commit (H := examplePlatform) (u "a" ++ [CR; LF] ++ u "b") None
  = commit (H := examplePlatform) (u "a" ++ [LF] ++ u "b") None.
Proof.
  assert (Hl : Forall (fun l => isLine l = true) [u "a"; u "b"]).
  { repeat constructor. }
  assert (Hne : [u "a"; u "b"] <> []) by discriminate.
  exact (@commit_line_endings examplePlatform [u "a"; u "b"] None Hne Hl eq_refl eq_refl).
Defined.

Lemma commit_blank_message_witness :
  tempMsgArg (H := examplePlatform) [SP; LF] = [DQUOTE; DQUOTE] /\
  exists later,
    commands (proc (snd (commit (H := examplePlatform) [SP; LF] None exampleState)))
    = (u "git commit --message " ++ [DQUOTE; DQUOTE]) :: later.
Proof.
  exact (@commit_blank_message examplePlatform [SP; LF] exampleState eq_refl eq_refl).
Defined.

Lemma execInRepo_trims_command_witness :
  execInRepo (H := examplePlatform) ([LF; SP] ++ u "git status" ++ [SP; LF]) None None
    exampleState
  = execInRepo (H := examplePlatform) (u "git status") None None exampleState.
Proof.
  exact (@execInRepo_trims_command examplePlatform [LF; SP] (u "git status") [SP; LF]
           None None exampleState eq_refl eq_refl).
Defined.

Lemma currentBranch_trimmed_witness : trim (u "main") = u "main".
Proof.
  exact (@currentBranch_trimmed examplePlatform exampleState (u "main") eq_refl).
Defined.

Lemma parseRemoteBranches_app_witness :
  parseRemoteBranches (u "origin") (u " origin/a" ++ [LF] ++ u "x/b" ++ [LF] ++ u "origin/c")
  = parseRemoteBranches (u "origin") (u " origin/a")
    ++ parseRemoteBranches (u "origin") (u "x/b" ++ [LF] ++ u "origin/c").
Proof.
  exact (parseRemoteBranches_app (u "origin") (u " origin/a")
           (u "x/b" ++ [LF] ++ u "origin/c") eq_refl).
Defined.
